(** * Trapdoor 1.0: the request handlers of [server.py]

    A shallow embedding of the access table, the bearer-token check and the
    six gated endpoints of [server.py], over a small model of the host
    (a directory tree and a process oracle), with the properties of the
    specification stated against it.

    Conventions of the model.
    - A Python [str] is a list of Unicode code points, [bytes] a list of
      octets; both are lists of [Z].
    - Text files are read and written with the UTF-8 codec and, on reading,
      universal newlines, as [Path.read_text], [Path.write_text] and
      [open(..., "a")] do on a POSIX host whose locale is UTF-8.
    - The file system is a tree of regular files and directories, with
      three further kinds of node: a character device that swallows writes
      ([Sink], as /dev/null), an entry the server's user may not examine
      ([Denied]) and a symbolic link whose target does not exist
      ([Dangling]).  Other symbolic links are taken as resolved by
      [Path.expanduser().resolve()], which is a parameter ([resolve]).
    - Time stamps ([modified], [timestamp]) are left out of the responses. *)

From Stdlib Require Import String Ascii DecimalString.
From Stdlib Require Import ZArith List Bool Lia.
From Stdlib Require Import Sorting.Mergesort Sorting.Sorted Sorting.Permutation.
From Stdlib Require Import Orders RelationClasses.
Import ListNotations.
Local Open Scope Z_scope.

(* ====================================================================== *)
(** * Python values *)
(* ====================================================================== *)

Definition codepoint := Z.
Definition str := list codepoint.
Definition bytes := list Z.

(** An ASCII literal of the source, as a [str]. *)
Definition lit (s : string) : str :=
  map (fun a => Z.of_N (N_of_ascii a)) (list_ascii_of_string s).

(** [str(n)] for a Python int. *)
Definition str_of_int (n : Z) : str := lit (NilZero.string_of_int (Z.to_int n)).

Definition str_eq_dec : forall a b : str, {a = b} + {a <> b} := list_eq_dec Z.eq_dec.

Definition str_eqb (a b : str) : bool := if str_eq_dec a b then true else false.

(** [s.startswith(prefix)] *)
Fixpoint startswith (s prefix : str) {struct prefix} : bool :=
  match prefix with
  | [] => true
  | p :: prefix' =>
      match s with
      | c :: s' => (c =? p) && startswith s' prefix'
      | [] => false
      end
  end.

(** [s.split(sep, 1)] for a one-character separator: the text before the
    first separator and, when there is one, the text after it. *)
Fixpoint split1 (sep : codepoint) (s : str) : str * option str :=
  match s with
  | [] => ([], None)
  | c :: s' =>
      if c =? sep then ([], Some s')
      else let '(a, b) := split1 sep s' in (c :: a, b)
  end.

(** Python's order on [str]: lexicographic on code points. *)
Fixpoint str_leb (a b : str) : bool :=
  match a, b with
  | [], _ => true
  | _ :: _, [] => false
  | x :: a', y :: b' => (x <? y) || ((x =? y) && str_leb a' b')
  end.

(* ====================================================================== *)
(** * The text codec: UTF-8 and universal newlines *)
(* ====================================================================== *)

Module Codec.

(** The octets of one code point; surrogates and values outside Unicode
    have none ([UnicodeEncodeError]). *)
Definition encode_cp (c : codepoint) : option bytes :=
  if c <? 0 then None
  else if c <? 0x80 then Some [c]
  else if c <? 0x800 then Some [0xC0 + c / 64; 0x80 + c mod 64]
  else if c <? 0x10000 then
    if (0xD800 <=? c) && (c <=? 0xDFFF) then None
    else Some [0xE0 + c / 4096; 0x80 + (c / 64) mod 64; 0x80 + c mod 64]
  else if c <? 0x110000 then
    Some [0xF0 + c / 262144; 0x80 + (c / 4096) mod 64;
          0x80 + (c / 64) mod 64; 0x80 + c mod 64]
  else None.

(** [s.encode("utf-8")] *)
Fixpoint encode (s : str) : option bytes :=
  match s with
  | [] => Some []
  | c :: s' =>
      match encode_cp c, encode s' with
      | Some b, Some bs => Some (b ++ bs)
      | _, _ => None
      end
  end.

Definition is_cont (b : Z) : bool := (0x80 <=? b) && (b <=? 0xBF).

Definition cons_opt (c : codepoint) (o : option str) : option str :=
  match o with Some s => Some (c :: s) | None => None end.

(** [b.decode("utf-8")], strict: overlong forms, surrogates, values above
    U+10FFFF and truncated sequences are refused ([UnicodeDecodeError]). *)
Fixpoint decode (bs : bytes) : option str :=
  match bs with
  | [] => Some []
  | b0 :: r0 =>
      if (0 <=? b0) && (b0 <? 0x80) then cons_opt b0 (decode r0)
      else if (0xC2 <=? b0) && (b0 <=? 0xDF) then
        match r0 with
        | b1 :: r1 =>
            if is_cont b1
            then cons_opt ((b0 - 0xC0) * 64 + (b1 - 0x80)) (decode r1)
            else None
        | _ => None
        end
      else if (0xE0 <=? b0) && (b0 <=? 0xEF) then
        match r0 with
        | b1 :: b2 :: r2 =>
            let c := (b0 - 0xE0) * 4096 + (b1 - 0x80) * 64 + (b2 - 0x80) in
            if is_cont b1 && is_cont b2 && (0x800 <=? c)
               && negb ((0xD800 <=? c) && (c <=? 0xDFFF))
            then cons_opt c (decode r2)
            else None
        | _ => None
        end
      else if (0xF0 <=? b0) && (b0 <=? 0xF4) then
        match r0 with
        | b1 :: b2 :: b3 :: r3 =>
            let c := (b0 - 0xF0) * 262144 + (b1 - 0x80) * 4096
                     + (b2 - 0x80) * 64 + (b3 - 0x80) in
            if is_cont b1 && is_cont b2 && is_cont b3
               && (0x10000 <=? c) && (c <? 0x110000)
            then cons_opt c (decode r3)
            else None
        | _ => None
        end
      else None
  end.

(** Universal newlines, as text-mode reading applies them: CR LF and a
    lone CR both become LF. *)
Fixpoint universal_newlines (s : str) : str :=
  match s with
  | [] => []
  | c :: r =>
      if c =? 13 then
        match r with
        | d :: r' =>
            if d =? 10 then 10 :: universal_newlines r'
            else 10 :: universal_newlines r
        | [] => [10]
        end
      else c :: universal_newlines r
  end.

Definition is_ascii (c : codepoint) : bool := (0 <=? c) && (c <? 0x80).

Definition no_cr (s : str) : bool := forallb (fun c => negb (c =? 13)) s.

End Codec.

(* ====================================================================== *)
(** * Access levels *)
(* ====================================================================== *)

(** One value of the dict [LEVELS]; [Level.fs_read a] is [a["fs_read"]]. *)
Module Level.
Record t := mk {
  description : str;
  fs_read : bool;
  fs_write : bool;
  fs_delete : bool;
  exec : bool;
}.
End Level.

Definition limited : Level.t :=
  {| Level.description := lit "Read-only filesystem, no command execution";
     Level.fs_read := true; Level.fs_write := false;
     Level.fs_delete := false; Level.exec := false |}.

Definition solid : Level.t :=
  {| Level.description := lit "Read/write filesystem, no command execution";
     Level.fs_read := true; Level.fs_write := true;
     Level.fs_delete := false; Level.exec := false |}.

Definition full : Level.t :=
  {| Level.description := lit "Full access: filesystem + command execution";
     Level.fs_read := true; Level.fs_write := true;
     Level.fs_delete := true; Level.exec := true |}.

(** The dict [LEVELS], in source order. *)
Definition LEVELS : list (str * Level.t) :=
  [(lit "limited", limited); (lit "solid", solid); (lit "full", full)].

Fixpoint getitem {A} (d : list (str * A)) (k : str) : option A :=
  match d with
  | [] => None
  | (k', v) :: d' => if str_eqb k' k then Some v else getitem d' k
  end.

(** The three choices of the command line ([--limited], [--solid],
    [--full]), the one [main] acts on. *)
Inductive LevelName := Limited | Solid | Full.

Definition key (l : LevelName) : str :=
  match l with
  | Limited => lit "limited"
  | Solid => lit "solid"
  | Full => lit "full"
  end.

(** [ACCESS = LEVELS[key]]; the three keys are in the dict
    ([LEVELS_access_of]), so the lookup never fails. *)
Definition access_of (l : LevelName) : Level.t :=
  match getitem LEVELS (key l) with
  | Some a => a
  | None => limited
  end.

(** The four permission bits a handler may test. *)
Inductive Capability := CanRead | CanWrite | CanDelete | CanExecute.

Definition grants (a : Level.t) (c : Capability) : bool :=
  match c with
  | CanRead => Level.fs_read a
  | CanWrite => Level.fs_write a
  | CanDelete => Level.fs_delete a
  | CanExecute => Level.exec a
  end.

Definition isAllowed (l : LevelName) (c : Capability) : bool :=
  grants (access_of l) c.

Definition Level_eqb (a b : Level.t) : bool :=
  str_eqb (Level.description a) (Level.description b)
  && Bool.eqb (Level.fs_read a) (Level.fs_read b)
  && Bool.eqb (Level.fs_write a) (Level.fs_write b)
  && Bool.eqb (Level.fs_delete a) (Level.fs_delete b)
  && Bool.eqb (Level.exec a) (Level.exec b).

(* ====================================================================== *)
(** * The host: a directory tree *)
(* ====================================================================== *)

Definition name := str.

(** A resolved absolute path: the components below the root. *)
Definition path := list name.

(** What a directory can hold: a regular file and its octets; a
    directory and its entries, in the host's order; a character device
    that accepts and discards what is written to it; an entry on which
    [stat] is refused (EACCES); a symbolic link whose target does not
    exist, which the directory lists and which leads nowhere (ENOENT). *)
#[warnings="-register-all"] Inductive node :=
| File (data : bytes)
| Dir (entries : list (name * node))
| Sink
| Denied
| Dangling.

Definition parent (p : path) : path := removelast p.

Fixpoint lookup_entry (n : name) (es : list (name * node)) : option node :=
  match es with
  | [] => None
  | (m, c) :: es' => if str_eqb m n then Some c else lookup_entry n es'
  end.

(** [put_entry n (Some c)] replaces the entry called [n], or adds one;
    [put_entry n None] removes it. *)
Fixpoint put_entry (n : name) (o : option node) (es : list (name * node))
  : list (name * node) :=
  match es with
  | [] => match o with Some c => [(n, c)] | None => [] end
  | (m, c0) :: es' =>
      if str_eqb m n then
        match o with
        | Some c => (m, c) :: es'
        | None => put_entry n None es'
        end
      else (m, c0) :: put_entry n o es'
  end.

(** Python exceptions the handlers can meet ([OverflowError_] is Python's
    [OverflowError]). *)
Inductive Exn :=
| HTTPException (status_code : Z) (detail : str)
| FileNotFoundError
| NotADirectoryError
| IsADirectoryError
| FileExistsError
| PermissionError
| OSError
| UnicodeEncodeError
| UnicodeDecodeError
| IndexError
| TimeoutExpired
| OverflowError_.

Definition is_OSError (e : Exn) : bool :=
  match e with
  | FileNotFoundError | NotADirectoryError | IsADirectoryError
  | FileExistsError | PermissionError | OSError => true
  | _ => false
  end.

(** The kernel's walk from the root to the node a path names; it follows
    a dangling link to nothing. *)
Fixpoint walk (p : path) (o : option node) : Exn + node :=
  match p with
  | [] =>
      match o with
      | Some Dangling | None => inl FileNotFoundError
      | Some t => inr t
      end
  | n :: p' =>
      match o with
      | None | Some Dangling => inl FileNotFoundError
      | Some (Dir es) => walk p' (lookup_entry n es)
      | Some Denied => inl PermissionError
      | Some _ => inl NotADirectoryError
      end
  end.

(** The same walk, rebuilding the tree around what [f] makes of the node
    found ([None]: no such entry in an existing directory). *)
Fixpoint alter (p : path) (f : option node -> Exn + option node)
  (o : option node) : Exn + option node :=
  match p with
  | [] => f o
  | n :: p' =>
      match o with
      | None => inl FileNotFoundError
      | Some (Dir es) =>
          match alter p' f (lookup_entry n es) with
          | inr r => inr (Some (Dir (put_entry n r es)))
          | inl e => inl e
          end
      | Some Denied => inl PermissionError
      | Some Dangling => inl FileNotFoundError
      | Some _ => inl NotADirectoryError
      end
  end.

(** [shutil.rmtree] below a node: entries go in directory order, and the
    first failure stops it.  [None]: the node is gone; [Some (n', e)]:
    [e] was raised and [n'] is what is left. *)
Fixpoint rm_node (n : node) : option (node * Exn) :=
  match n with
  | Dir es =>
      let fix rm_entries (es : list (name * node)) : list (name * node) * option Exn :=
        match es with
        | [] => ([], None)
        | (m, c) :: rest =>
            match rm_node c with
            | Some (c', e) => ((m, c') :: rest, Some e)
            | None => rm_entries rest
            end
        end in
      match rm_entries es with
      | (es', Some e) => Some (Dir es', e)
      | (_, None) => None
      end
  | Denied => Some (Denied, PermissionError)
  | File _ | Sink | Dangling => None
  end.

Definition st_size (n : node) : nat :=
  match n with
  | File data => length data
  | _ => 0%nat
  end.

Definition S_ISDIR (n : node) : bool := match n with Dir _ => true | _ => false end.
Definition S_ISREG (n : node) : bool := match n with File _ => true | _ => false end.

(* ====================================================================== *)
(** * Computations: state and exceptions *)
(* ====================================================================== *)

Inductive Outcome (A : Type) :=
| Return (a : A)
| Raise (e : Exn).
Arguments Return {A} a.
Arguments Raise {A} e.

(** A computation reads and updates the tree and returns or raises. *)
Definition M (A : Type) := node -> Outcome A * node.

Definition ret {A} (a : A) : M A := fun fs => (Return a, fs).
Definition raise {A} (e : Exn) : M A := fun fs => (Raise e, fs).

Definition bind {A B} (m : M A) (k : A -> M B) : M B :=
  fun fs =>
    match m fs with
    | (Return a, fs') => k a fs'
    | (Raise e, fs') => (Raise e, fs')
    end.

(** [try: m except: h] where [h] re-raises what it does not handle. *)
Definition try_except {A} (m : M A) (h : Exn -> M A) : M A :=
  fun fs =>
    match m fs with
    | (Return a, fs') => (Return a, fs')
    | (Raise e, fs') => h e fs'
    end.

Definition get : M node := fun fs => (Return fs, fs).
Definition put (fs' : node) : M unit := fun _ => (Return tt, fs').

Declare Scope py_scope.
Delimit Scope py_scope with py.
Notation "x <- m ;; k" := (bind m (fun x => k))
  (at level 61, m at next level, right associativity) : py_scope.
Notation "m ;; k" := (bind m (fun _ => k))
  (at level 61, right associativity) : py_scope.
Local Open Scope py_scope.

(** [if cond: raise e] *)
Definition raise_if (cond : bool) (e : Exn) : M unit :=
  if cond then raise e else ret tt.

(* ====================================================================== *)
(** * What the handlers call: pathlib, os, shutil, subprocess *)
(* ====================================================================== *)

(** A child process as [subprocess.run] sees it: what it has written and
    returned when it exits, the whole seconds that takes ([None]: it never
    exits by itself), and the tree it leaves behind, on exit or when killed
    after the given number of seconds. *)
Record Child := mkChild {
  child_stdout : bytes;
  child_stderr : bytes;
  child_returncode : Z;
  child_runtime : option Z;
  child_fs_exit : node;
  child_fs_kill : Z -> node;
}.

Inductive Spawn :=
| Spawned (c : Child)
| SpawnError (e : Exn).

(** The world outside [server.py]. *)
Record Env := mkEnv {
  (** [Path(p).expanduser().resolve()] *)
  resolve : str -> path;
  (** where the kernel finds a path given to [chdir] *)
  os_path : str -> path;
  (** [execvp] of an argument vector in a working directory: the program
      name does not resolve ([SpawnError FileNotFoundError]), it may not be
      run ([SpawnError PermissionError]), or a child runs *)
  execvp : list str -> path -> node -> Spawn;
  (** pathlib's [exists], [is_dir] and [is_file] answer [False] on ENOENT
      and ENOTDIR; whether they also do on EACCES depends on the Python
      release (they re-raise it before 3.13) *)
  swallow_eacces : bool;
  (** the upstream of the chat proxy when [OLLAMA_HOST] is set *)
  ollama : option (str -> list str -> str);
}.

Record CompletedProcess := mkCompleted {
  stdout : str;
  stderr : str;
  returncode : Z;
}.

Section Library.

Variable env : Env.

Definition os_stat (p : path) : M node :=
  fun fs =>
    match walk p (Some fs) with
    | inr Denied => (Raise PermissionError, fs)
    | inr Dangling => (Raise FileNotFoundError, fs)
    | inr n => (Return n, fs)
    | inl e => (Raise e, fs)
    end.

Definition ignore_error (e : Exn) : bool :=
  match e with
  | FileNotFoundError | NotADirectoryError => true
  | PermissionError => swallow_eacces env
  | _ => false
  end.

Definition stat_test (test : node -> bool) (p : path) : M bool :=
  try_except (n <- os_stat p ;; ret (test n))
             (fun e => if ignore_error e then ret false else raise e).

(** [Path.exists], [Path.is_dir], [Path.is_file] *)
Definition exists_ : path -> M bool := stat_test (fun _ => true).
Definition is_dir : path -> M bool := stat_test S_ISDIR.
Definition is_file : path -> M bool := stat_test S_ISREG.

(** One system call that changes the node at a path. *)
Definition update (p : path) (f : option node -> Exn + option node) : M unit :=
  fun fs =>
    match alter p f (Some fs) with
    | inr (Some fs') => (Return tt, fs')
    | inr None => (Raise OSError, Dir [])
    | inl e => (Raise e, fs)
    end.

Definition os_mkdir (p : path) : M unit :=
  update p (fun o => match o with
                     | Some _ => inl FileExistsError
                     | None => inr (Some (Dir []))
                     end).

(** [Path.mkdir(parents=True, exist_ok=True)], on the components of the
    path innermost first, so that the parent is the tail. *)
Fixpoint mkdir_from (rp : list name) : M unit :=
  let self := rev rp in
  try_except (os_mkdir self) (fun e =>
    match e with
    | FileNotFoundError =>
        match rp with
        | [] => raise e
        | _ :: rparent =>
            mkdir_from rparent ;;
            try_except (os_mkdir self) (fun e' =>
              match e' with
              | FileNotFoundError => raise e'
              | _ =>
                  if is_OSError e'
                  then d <- is_dir self ;; raise_if (negb d) e'
                  else raise e'
              end)
        end
    | _ =>
        if is_OSError e
        then d <- is_dir self ;; raise_if (negb d) e
        else raise e
    end).

Definition Path_mkdir (p : path) : M unit := mkdir_from (rev p).

(** [open(p, "w")]: create or truncate; through a dangling link the
    target is created. *)
Definition open_w (o : option node) : Exn + option node :=
  match o with
  | None | Some (File _) | Some Dangling => inr (Some (File []))
  | Some Sink => inr (Some Sink)
  | Some (Dir _) => inl IsADirectoryError
  | Some Denied => inl PermissionError
  end.

(** [open(p, "a")]: create or keep. *)
Definition open_a (o : option node) : Exn + option node :=
  match o with
  | None | Some Dangling => inr (Some (File []))
  | Some (File data) => inr (Some (File data))
  | Some Sink => inr (Some Sink)
  | Some (Dir _) => inl IsADirectoryError
  | Some Denied => inl PermissionError
  end.

(** Writing octets at the end of an open file. *)
Definition os_write (bs : bytes) (o : option node) : Exn + option node :=
  match o with
  | Some (File data) => inr (Some (File (data ++ bs)))
  | Some Sink => inr (Some Sink)
  | _ => inl OSError
  end.

(** [f.write(content)] on a text file open at [p]: the number of
    characters written. *)
Definition f_write (p : path) (content : str) : M nat :=
  match Codec.encode content with
  | None => raise UnicodeEncodeError
  | Some bs => update p (os_write bs) ;; ret (List.length content)
  end.

(** [Path.write_text(content)] *)
Definition write_text (p : path) (content : str) : M nat :=
  update p open_w ;; f_write p content.

(** [with open(p, "a") as f: f.write(content)] *)
Definition append_text (p : path) (content : str) : M nat :=
  update p open_a ;; f_write p content.

(** [Path.read_text()] *)
Definition read_text (p : path) : M str :=
  fun fs =>
    match walk p (Some fs) with
    | inr (File data) =>
        match Codec.decode data with
        | Some s => (Return (Codec.universal_newlines s), fs)
        | None => (Raise UnicodeDecodeError, fs)
        end
    | inr Sink => (Return [], fs)
    | inr (Dir _) => (Raise IsADirectoryError, fs)
    | inr Denied => (Raise PermissionError, fs)
    | inr Dangling => (Raise FileNotFoundError, fs)
    | inl e => (Raise e, fs)
    end.

(** [Path.iterdir()]: the names in the directory, in the host's order;
    it examines none of them, so a dangling link is listed too. *)
Definition iterdir (p : path) : M (list name) :=
  fun fs =>
    match walk p (Some fs) with
    | inr (Dir es) => (Return (map fst es), fs)
    | inr Denied => (Raise PermissionError, fs)
    | inr _ => (Raise NotADirectoryError, fs)
    | inl e => (Raise e, fs)
    end.

(** [Path.unlink()] *)
Definition unlink (p : path) : M unit :=
  update p (fun o => match o with
                     | None => inl FileNotFoundError
                     | Some (Dir _) => inl IsADirectoryError
                     | Some Denied => inl PermissionError
                     | Some _ => inr None
                     end).

(** [shutil.rmtree(p)] *)
Definition rmtree (p : path) : M unit :=
  n <- os_stat p ;;
  match rm_node n with
  | None => update p (fun _ => inr None)
  | Some (n', e) => update p (fun _ => inr (Some n')) ;; raise e
  end.

(** [subprocess.run(cmd, cwd=cwd, capture_output=True, text=True,
    timeout=timeout)]: the child changes directory, then executes.  The
    parent then waits on the child's pipes with [poll], whose time-out is
    a C int of milliseconds: a timeout of 2147484 seconds or more raises
    [OverflowError] and the child is killed at once.  With a timeout that
    is not positive the deadline has passed before the first wait.
    Otherwise the child's output is decoded as text when it has exited
    before the deadline, and the child is killed at the deadline. *)
Definition subprocess_run (cmd : list str) (cwd : str) (timeout : Z)
  : M CompletedProcess :=
  match cmd with
  | [] => raise IndexError
  | _ :: _ =>
      fs <- get ;;
      match walk (os_path env cwd) (Some fs) with
      | inl e => raise e
      | inr Denied => raise PermissionError
      | inr (Dir _) =>
          match execvp env cmd (os_path env cwd) fs with
          | SpawnError e => raise e
          | Spawned c =>
              if 2147484 <=? timeout then
                put (child_fs_kill c 0) ;; raise OverflowError_
              else if timeout <=? 0 then
                put (child_fs_kill c 0) ;; raise TimeoutExpired
              else
                match child_runtime c with
                | Some d =>
                    if d <? timeout then
                      put (child_fs_exit c) ;;
                      match Codec.decode (child_stdout c),
                            Codec.decode (child_stderr c) with
                      | Some out, Some err =>
                          ret {| stdout := Codec.universal_newlines out;
                                 stderr := Codec.universal_newlines err;
                                 returncode := child_returncode c |}
                      | _, _ => raise UnicodeDecodeError
                      end
                    else put (child_fs_kill c timeout) ;; raise TimeoutExpired
                | None => put (child_fs_kill c timeout) ;; raise TimeoutExpired
                end
          end
      | inr _ => raise NotADirectoryError
      end
  end.

End Library.

(* ====================================================================== *)
(** * Requests and responses *)
(* ====================================================================== *)

Record WriteRequest := mkWriteRequest {
  wr_path : str;
  wr_content : str;
  wr_mode : str;            (* default "write" *)
}.

Record MkdirRequest := mkMkdirRequest { mk_path : str }.

Record RmRequest := mkRmRequest { rm_path : str }.

Record ExecRequest := mkExecRequest {
  cmd : list str;
  cwd : str;                (* default "/tmp" *)
  timeout : Z;              (* default 60 *)
}.

Record ChatRequest := mkChatRequest {
  model : str;              (* default "gpt-4" *)
  messages : list str;
}.

(** One element of [entries] in a directory listing. *)
Inductive Entry :=
| EntryInfo (name : name) (type : str) (size : option nat)
| EntryError (name : name) (type : str) (error : str).


(** The JSON object a handler returns. *)
Inductive Body :=
| Health (status version access_level : str) (read write delete exec_ : bool)
| LsFile (path : path) (type : str) (size : nat)
| LsDir (path : path) (entries : list Entry)
| ReadText (path : path) (content : str) (size : nat)
| ReadBinary (path : path) (error : str) (size : nat)
| Written (path : path) (written : nat) (mode : str)
| Created (path : path) (created : bool)
| Removed (path : path) (removed : bool)
| ExecResult (cmd : list str) (cwd : str) (stdout stderr : str) (returncode : Z)
| ChatRelayed (json : str)
| ChatStub.

(** What the caller receives: the body with status 200, the status and
    detail of an [HTTPException], or status 500 for any other exception. *)
Inductive Response :=
| OK (body : Body)
| Error (status_code : Z) (detail : str)
| InternalServerError (e : Exn).

Definition status (r : Response) : Z :=
  match r with
  | OK _ => 200
  | Error s _ => s
  | InternalServerError _ => 500
  end.

Definition respond (m : M Body) (fs : node) : Response * node :=
  match m fs with
  | (Return b, fs') => (OK b, fs')
  | (Raise (HTTPException s d), fs') => (Error s d, fs')
  | (Raise e, fs') => (InternalServerError e, fs')
  end.

(** The endpoints that call [require_auth]. *)
Inductive Request :=
| GET_fs_ls (path : str)
| GET_fs_read (path : str)
| POST_fs_write (req : WriteRequest)
| POST_fs_mkdir (req : MkdirRequest)
| POST_fs_rm (req : RmRequest)
| POST_exec (req : ExecRequest)
| POST_chat_completions (req : ChatRequest).

(** [sorted] on the names of a directory: a stable merge sort for
    Python's order on [str]. *)
Module StrOrder <: TotalLeBool.
Definition t := str.
Definition leb := str_leb.
Lemma leb_total : forall a b, leb a b = true \/ leb b a = true.
Proof.
  unfold leb.
  induction a as [|x a IH]; intros [|y b]; simpl; auto.
  destruct (Z.ltb_spec x y); simpl; auto.
  destruct (Z.ltb_spec y x); simpl; auto.
  assert (x = y) by lia. subst y. rewrite Z.eqb_refl. simpl. apply IH.
Qed.
End StrOrder.

Module StrSort := Sort StrOrder.

Definition sorted : list str -> list str := StrSort.sort.

(* ====================================================================== *)
(** * The handlers of [server.py] *)
(* ====================================================================== *)

Section Server.

Variable env : Env.

(** The module's globals. *)
Variable TOKEN : str.
Variable ACCESS : Level.t.

(** [not authorization] for an optional header: absent or empty. *)
Definition not_ (authorization : option str) : bool :=
  match authorization with
  | None | Some [] => true
  | Some (_ :: _) => false
  end.

Definition require_auth (authorization : option str) : M str :=
  let a := match authorization with Some a => a | None => [] end in
  if not_ authorization || negb (startswith a (lit "Bearer "))
  then raise (HTTPException 401 (lit "Missing Authorization header"))
  else
    match snd (split1 32 a) with
    | None => raise IndexError
    | Some token =>
        if negb (str_eqb token TOKEN)
        then raise (HTTPException 403 (lit "Invalid token"))
        else ret token
    end.

Definition health : M Body :=
  let level_name :=
    match find (fun kv => Level_eqb (snd kv) ACCESS) LEVELS with
    | Some (k, _) => k
    | None => lit "unknown"
    end in
  ret (Health (lit "ok") (lit "1.0.0") level_name
              (Level.fs_read ACCESS) (Level.fs_write ACCESS)
              (Level.fs_delete ACCESS) (Level.exec ACCESS)).

(** The body of the [for] loop of [fs_ls], for the entry called [n]. *)
Definition ls_entry (target : path) (n : name) : M Entry :=
  let item := target ++ [n] in
  try_except
    (st <- os_stat item ;;
     d <- is_dir env item ;;
     f <- is_file env item ;;
     ret (EntryInfo n (if d then lit "dir" else lit "file")
                      (if f then Some (st_size st) else None)))
    (fun e =>
       match e with
       | PermissionError => ret (EntryError n (lit "unknown") (lit "permission denied"))
       | _ => raise e
       end).

Fixpoint for_each {A B} (f : A -> M B) (l : list A) : M (list B) :=
  match l with
  | [] => ret []
  | a :: l' => b <- f a ;; bs <- for_each f l' ;; ret (b :: bs)
  end.

Definition fs_ls (path : str) (authorization : option str) : M Body :=
  require_auth authorization ;;
  raise_if (negb (Level.fs_read ACCESS))
           (HTTPException 403 (lit "Read access disabled")) ;;
  let target := resolve env path in
  e <- exists_ env target ;;
  raise_if (negb e) (HTTPException 404 (lit "Path not found: " ++ path)) ;;
  d <- is_dir env target ;;
  if negb d then
    st <- os_stat target ;;
    ret (LsFile target (lit "file") (st_size st))
  else
    items <- iterdir target ;;
    entries <- for_each (ls_entry target) (sorted items) ;;
    ret (LsDir target entries).

Definition fs_read (path : str) (authorization : option str) : M Body :=
  require_auth authorization ;;
  raise_if (negb (Level.fs_read ACCESS))
           (HTTPException 403 (lit "Read access disabled")) ;;
  let target := resolve env path in
  e <- exists_ env target ;;
  raise_if (negb e) (HTTPException 404 (lit "File not found: " ++ path)) ;;
  f <- is_file env target ;;
  raise_if (negb f) (HTTPException 400 (lit "Not a file: " ++ path)) ;;
  try_except
    (content <- read_text target ;;
     ret (ReadText target content (List.length content)))
    (fun e =>
       match e with
       | UnicodeDecodeError =>
           st <- os_stat target ;;
           ret (ReadBinary target (lit "binary file") (st_size st))
       | _ => raise e
       end).

Definition fs_write (req : WriteRequest) (authorization : option str) : M Body :=
  require_auth authorization ;;
  raise_if (negb (Level.fs_write ACCESS))
           (HTTPException 403 (lit "Write access disabled. Start with --solid or --full")) ;;
  let target := resolve env (wr_path req) in
  Path_mkdir env (parent target) ;;
  (if str_eqb (wr_mode req) (lit "append")
   then append_text target (wr_content req)
   else write_text target (wr_content req)) ;;
  ret (Written target (List.length (wr_content req)) (wr_mode req)).

Definition fs_mkdir (req : MkdirRequest) (authorization : option str) : M Body :=
  require_auth authorization ;;
  raise_if (negb (Level.fs_write ACCESS))
           (HTTPException 403 (lit "Write access disabled. Start with --solid or --full")) ;;
  let target := resolve env (mk_path req) in
  Path_mkdir env target ;;
  ret (Created target true).

Definition fs_rm (req : RmRequest) (authorization : option str) : M Body :=
  require_auth authorization ;;
  raise_if (negb (Level.fs_delete ACCESS))
           (HTTPException 403 (lit "Delete access disabled. Start with --full")) ;;
  let target := resolve env (rm_path req) in
  e <- exists_ env target ;;
  raise_if (negb e) (HTTPException 404 (lit "Path not found: " ++ rm_path req)) ;;
  d <- is_dir env target ;;
  (if d then rmtree target else unlink target) ;;
  ret (Removed target true).

(** [req.cmd[0]] *)
Definition cmd0 (req : ExecRequest) : M str :=
  match cmd req with
  | [] => raise IndexError
  | c :: _ => ret c
  end.

Definition exec_command (req : ExecRequest) (authorization : option str) : M Body :=
  require_auth authorization ;;
  raise_if (negb (Level.exec ACCESS))
           (HTTPException 403 (lit "Exec disabled. Start with --full to enable")) ;;
  try_except
    (result <- subprocess_run env (cmd req) (cwd req) (timeout req) ;;
     ret (ExecResult (cmd req) (cwd req) (stdout result) (stderr result)
                     (returncode result)))
    (fun e =>
       match e with
       | TimeoutExpired =>
           raise (HTTPException 408
                    (lit "Command timed out after " ++ str_of_int (timeout req) ++ lit "s"))
       | FileNotFoundError =>
           c <- cmd0 req ;;
           raise (HTTPException 400 (lit "Command not found: " ++ c))
       | _ => raise e
       end).

Definition chat_completions (req : ChatRequest) (authorization : option str) : M Body :=
  require_auth authorization ;;
  match ollama env with
  | Some post => ret (ChatRelayed (post (model req) (messages req)))
  | None => ret ChatStub
  end.

(** The routes behind [require_auth]. *)
Definition handle (authorization : option str) (r : Request) : M Body :=
  match r with
  | GET_fs_ls path => fs_ls path authorization
  | GET_fs_read path => fs_read path authorization
  | POST_fs_write req => fs_write req authorization
  | POST_fs_mkdir req => fs_mkdir req authorization
  | POST_fs_rm req => fs_rm req authorization
  | POST_exec req => exec_command req authorization
  | POST_chat_completions req => chat_completions req authorization
  end.

(** One request served: the response and the tree afterwards. *)
Definition serve (authorization : option str) (r : Request) (fs : node)
  : Response * node :=
  respond (handle authorization r) fs.

End Server.

(** The capability each route tests after authentication; the chat proxy
    tests none. *)
Definition required_capability (r : Request) : option Capability :=
  match r with
  | GET_fs_ls _ | GET_fs_read _ => Some CanRead
  | POST_fs_write _ | POST_fs_mkdir _ => Some CanWrite
  | POST_fs_rm _ => Some CanDelete
  | POST_exec _ => Some CanExecute
  | POST_chat_completions _ => None
  end.

(** The detail of the 403 a route gives when its capability is off. *)
Definition disabled_detail (c : Capability) : str :=
  match c with
  | CanRead => lit "Read access disabled"
  | CanWrite => lit "Write access disabled. Start with --solid or --full"
  | CanDelete => lit "Delete access disabled. Start with --full"
  | CanExecute => lit "Exec disabled. Start with --full to enable"
  end.

(** The node a walk has found, if it found one. *)
Definition found (r : Exn + node) : option node :=
  match r with
  | inr n => Some n
  | inl _ => None
  end.

(** What the loop of [fs_ls] appends for the entry [n], a node [c];
    nothing for a dangling link, on which the loop stops. *)
Definition listed (n : name) (c : node) : option Entry :=
  match c with
  | Denied => Some (EntryError n (lit "unknown") (lit "permission denied"))
  | Dir _ => Some (EntryInfo n (lit "dir") None)
  | File data => Some (EntryInfo n (lit "file") (Some (List.length data)))
  | Sink => Some (EntryInfo n (lit "file") None)
  | Dangling => None
  end.

(** What is at a path, a link included: the entry itself, not what the
    kernel's walk makes of it. *)
Fixpoint peek (p : path) (o : option node) : option node :=
  match p with
  | [] => o
  | n :: p' =>
      match o with
      | Some (Dir es) => peek p' (lookup_entry n es)
      | _ => None
      end
  end.

(* ====================================================================== *)
(** * Start-up: the token file and the port *)
(* ====================================================================== *)

(** [c.isspace()] for one character, as [str.strip] tests it. *)
Definition isspace (c : codepoint) : bool :=
  ((0x09 <=? c) && (c <=? 0x0D)) || ((0x1C <=? c) && (c <=? 0x20))
  || (c =? 0x85) || (c =? 0xA0) || (c =? 0x1680)
  || ((0x2000 <=? c) && (c <=? 0x200A))
  || (c =? 0x2028) || (c =? 0x2029) || (c =? 0x202F) || (c =? 0x205F)
  || (c =? 0x3000).

Fixpoint lstrip (s : str) : str :=
  match s with
  | [] => []
  | c :: s' => if isspace c then lstrip s' else s
  end.

(** [s.strip()] *)
Definition strip (s : str) : str := rev (lstrip (rev (lstrip s))).

(** The characters [secrets.token_hex] draws from: [0-9a-f]. *)
Definition hexdigit (c : codepoint) : bool :=
  ((48 <=? c) && (c <=? 57)) || ((97 <=? c) && (c <=? 102)).

Section Startup.

Variable env : Env.

(** [Path.home()] *)
Variable home : path.

(** What [secrets.token_hex(16)] returns when it is called. *)
Variable token_hex_16 : str.

Definition TOKEN_FILE : path := home ++ [lit ".trapdoor"; lit "token"].

(** [Path.chmod(mode)]: the path must be there; the tree keeps no
    permission bits. *)
Definition chmod (p : path) : M unit :=
  os_stat p ;; ret tt.

Definition get_or_create_token : M str :=
  Path_mkdir env (parent TOKEN_FILE) ;;
  e <- exists_ env TOKEN_FILE ;;
  if e then
    content <- read_text TOKEN_FILE ;;
    ret (strip content)
  else
    let token := token_hex_16 in
    write_text TOKEN_FILE token ;;
    chmod TOKEN_FILE ;;
    ret token.

End Startup.

(** What [find_open_port] does: it returns a port, raises [RuntimeError]
    when the range is used up, or lets the [OverflowError] of [bind]
    through when the port is not a 16-bit number. *)
Inductive PortSearch :=
| Port (port : Z)
| RuntimeError
| OverflowError.

Section Ports.

(** Whether [bind(('0.0.0.0', port))] succeeds, for a port in range; it
    raises [OSError] when it does not. *)
Variable bindable : Z -> bool.

(** The [for] loop over [range(port, port + tries)]. *)
Fixpoint scan_ports (port : Z) (tries : nat) : PortSearch :=
  match tries with
  | O => RuntimeError
  | S tries' =>
      if (port <? 0) || (65535 <? port) then OverflowError
      else if bindable port then Port port
      else scan_ports (port + 1) tries'
  end.

Definition find_open_port (start max_tries : Z) : PortSearch :=
  scan_ports start (Z.to_nat max_tries).

End Ports.

(** Two paths part ways: after a common prefix they go on with different
    names. *)
Fixpoint diverge (p q : path) : bool :=
  match p, q with
  | a :: p', b :: q' => if str_eqb a b then diverge p' q' else true
  | _, _ => false
  end.

(** A computation that leaves the tree as it found it, whatever it
    returns or raises. *)
Definition readonly {A} (m : M A) : Prop :=
  forall fs r fs', m fs = (r, fs') -> fs' = fs.

(** Two nodes of the same kind: both regular files, both directories,
    both devices, both refused or both dangling links. *)
Definition same_kind (a b : node) : bool :=
  match a, b with
  | File _, File _ | Dir _, Dir _ | Sink, Sink | Denied, Denied
  | Dangling, Dangling => true
  | _, _ => false
  end.

(** A computation after which every path that led somewhere still leads
    to a node of the same kind, whatever it returns or raises. *)
Definition keeps_paths {A} (m : M A) : Prop :=
  forall fs r fs', m fs = (r, fs') ->
  forall q n, walk q (Some fs) = inr n ->
  exists n', walk q (Some fs') = inr n' /\ same_kind n n' = true.

(** A change of one node that removes nothing, keeps with its kind a node
    that a walk finds, and leaves directories alone. *)
Definition keeps_node (f : option node -> Exn + option node) : Prop :=
  (forall o, f o <> inr None) /\
  (forall n r, n <> Dangling -> f (Some n) = inr r ->
   exists n', r = Some n' /\ same_kind n n' = true /\ S_ISDIR n = false).

(* ====================================================================== *)
(** * A small host, for running the handlers *)
(* ====================================================================== *)

Module Demo.

(** The components of a POSIX path, split at [/]. *)
Fixpoint parts_from (cur : str) (s : str) : path :=
  match s with
  | [] => match cur with [] => [] | _ => [rev cur] end
  | c :: s' =>
      if c =? 47 then
        match cur with
        | [] => parts_from [] s'
        | _ => rev cur :: parts_from [] s'
        end
      else parts_from (c :: cur) s'
  end.

Definition parts : str -> path := parts_from [].

Definition tree : node :=
  Dir [ (lit "tmp", Dir [ (lit "t.txt", File [104; 105]) ]);
        (lit "dev", Dir [ (lit "null", Sink) ]);
        (lit "srv", Dir [ (lit "notes", File [111; 107; 10]);
                          (lit "vault", Denied);
                          (lit "Inbox", Dir []) ]) ].

(** A tree whose directory /srv holds a dangling link beside an entry
    that may not be examined. *)
Definition links : node :=
  Dir [ (lit "srv", Dir [ (lit "vault", Denied);
                          (lit "old", Dangling);
                          (lit "notes", File [111; 107; 10]) ]) ].

Definition exits (out : bytes) (code : Z) (fs : node) : Spawn :=
  Spawned {| child_stdout := out; child_stderr := []; child_returncode := code;
             child_runtime := Some 0; child_fs_exit := fs;
             child_fs_kill := fun _ => fs |}.

(** Four programs: [ls] prints a line and exits 0, [false] exits 1,
    [dump] prints an octet that is not UTF-8 and exits 1, [yes] never
    exits; no other name resolves. *)
Definition programs (argv : list str) (_ : path) (fs : node) : Spawn :=
  match argv with
  | [] => SpawnError FileNotFoundError
  | prog :: _ =>
      if str_eqb prog (lit "ls") then exits [116; 10] 0 fs
      else if str_eqb prog (lit "false") then exits [] 1 fs
      else if str_eqb prog (lit "dump") then exits [255] 1 fs
      else if str_eqb prog (lit "yes") then
        Spawned {| child_stdout := []; child_stderr := []; child_returncode := 0;
                   child_runtime := None; child_fs_exit := fs;
                   child_fs_kill := fun _ => fs |}
      else SpawnError FileNotFoundError
  end.

Definition env : Env :=
  {| resolve := parts; os_path := parts; execvp := programs;
     swallow_eacces := false; ollama := None |}.

Definition TOKEN : str := lit "0123456789abcdef0123456789abcdef".

Definition bearer : option str := Some (lit "Bearer " ++ TOKEN).

End Demo.

(* ====================================================================== *)
(** * The claims of the specification, as stated *)
(* ====================================================================== *)

(** The header has the shape [Bearer <token>]. *)
Definition bearer_shape (authorization : option str) : Prop :=
  exists token, authorization = Some (lit "Bearer " ++ token).

(** Write-then-read round trip, as the specification words it: after a
    successful write of [C] to [P], reading [P] gives back [C] and
    [len(C)]. *)
Definition round_trip_as_stated : Prop :=
  forall env TOKEN l authorization P C fs b fs',
    serve env TOKEN (access_of l) authorization
          (POST_fs_write (mkWriteRequest P C (lit "write"))) fs = (OK b, fs') ->
    serve env TOKEN (access_of l) authorization (GET_fs_read P) fs'
    = (OK (ReadText (resolve env P) C (List.length C)), fs').

(** The count reported by a write, as the specification words it: the
    byte length of what the file then holds. *)
Definition written_is_byte_length_as_stated : Prop :=
  forall env TOKEN ACCESS authorization P C fs target w m fs' data,
    serve env TOKEN ACCESS authorization
          (POST_fs_write (mkWriteRequest P C (lit "write"))) fs
    = (OK (Written target w m), fs') ->
    walk target (Some fs') = inr (File data) ->
    w = List.length data.

(* ====================================================================== *)
(** * Strings and the codec *)
(* ====================================================================== *)

Lemma str_eqb_eq a b : str_eqb a b = true <-> a = b.
Proof. unfold str_eqb. destruct (str_eq_dec a b); split; congruence. Qed.

Lemma str_eqb_refl a : str_eqb a a = true.
Proof. now apply str_eqb_eq. Qed.

Lemma str_eqb_neq a b : a <> b -> str_eqb a b = false.
Proof. unfold str_eqb. destruct (str_eq_dec a b); congruence. Qed.

Lemma startswith_app prefix rest : startswith (prefix ++ rest) prefix = true.
Proof.
  induction prefix as [|p prefix IH]; simpl; [reflexivity|].
  now rewrite Z.eqb_refl, IH.
Qed.

Lemma startswith_inv s prefix :
  startswith s prefix = true -> exists rest, s = prefix ++ rest.
Proof.
  revert s; induction prefix as [|p prefix IH]; intros s H.
  - now exists s.
  - destruct s as [|c s]; simpl in H; [discriminate|].
    apply andb_true_iff in H as [Hc Hs]. apply Z.eqb_eq in Hc. subst c.
    destruct (IH _ Hs) as [rest ->]. now exists rest.
Qed.


Module CodecFacts.
Import Codec.

Ltac decide_tests :=
  repeat (cbn [andb negb orb];
          match goal with
          | |- context [?a <? ?b] => destruct (Z.ltb_spec a b); try lia
          | |- context [?a <=? ?b] => destruct (Z.leb_spec a b); try lia
          end);
  cbn [andb negb orb].

(** [Some l = Some b] read as [b = l], without computing in [l]. *)
Ltac some_inj :=
  let H := fresh in
  intros H;
  match type of H with
  | Some ?l = Some ?b => assert (b = l) by congruence; subst b; clear H
  end.

Lemma digits2 c :
  exists q r, c / 64 = q /\ c mod 64 = r /\ c = 64 * q + r /\ 0 <= r < 64.
Proof.
  eexists _, _; repeat split; try reflexivity; Z.div_mod_to_equations; lia.
Qed.

Lemma digits3 c :
  exists q r1 r0,
    c / 4096 = q /\ (c / 64) mod 64 = r1 /\ c mod 64 = r0 /\
    c = 4096 * q + 64 * r1 + r0 /\ 0 <= r1 < 64 /\ 0 <= r0 < 64.
Proof.
  eexists _, _, _; repeat split; try reflexivity; Z.div_mod_to_equations; lia.
Qed.

Lemma digits4 c :
  exists q r2 r1 r0,
    c / 262144 = q /\ (c / 4096) mod 64 = r2 /\ (c / 64) mod 64 = r1 /\
    c mod 64 = r0 /\ c = 262144 * q + 4096 * r2 + 64 * r1 + r0 /\
    0 <= r2 < 64 /\ 0 <= r1 < 64 /\ 0 <= r0 < 64.
Proof.
  eexists _, _, _, _; repeat split; try reflexivity; Z.div_mod_to_equations; lia.
Qed.

(** The decoder reads back the octets of one code point. *)
Lemma decode_encode_cp c b rest :
  encode_cp c = Some b -> decode (b ++ rest) = cons_opt c (decode rest).
Proof.
  unfold encode_cp.
  destruct (Z.ltb_spec c 0); [discriminate|].
  destruct (Z.ltb_spec c 0x80).
  { some_inj. cbn [app decode]. decide_tests. reflexivity. }
  destruct (Z.ltb_spec c 0x800).
  { some_inj. destruct (digits2 c) as (q & r & -> & -> & E & ?).
    remember (0xC0 + q) as b0. remember (0x80 + r) as b1.
    cbn [app decode]. unfold is_cont. decide_tests. f_equal. lia. }
  destruct (Z.ltb_spec c 0x10000).
  { destruct (Z.leb_spec 0xD800 c), (Z.leb_spec c 0xDFFF); cbn [andb];
      try discriminate; some_inj;
      destruct (digits3 c) as (q & r1 & r0 & -> & -> & -> & E & ? & ?);
      remember (0xE0 + q) as b0; remember (0x80 + r1) as b1;
      remember (0x80 + r0) as b2;
      cbn [app decode]; unfold is_cont; cbv zeta; decide_tests; f_equal; lia. }
  destruct (Z.ltb_spec c 0x110000); [|discriminate].
  some_inj.
  destruct (digits4 c) as (q & r2 & r1 & r0 & -> & -> & -> & -> & E & ? & ? & ?).
  remember (0xF0 + q) as b0. remember (0x80 + r2) as b1.
  remember (0x80 + r1) as b2. remember (0x80 + r0) as b3.
  cbn [app decode]; unfold is_cont; cbv zeta; decide_tests; f_equal; lia.
Qed.

(** Decoding undoes encoding. *)
Lemma decode_encode s bs : encode s = Some bs -> decode bs = Some s.
Proof.
  revert bs; induction s as [|c s IH]; simpl; intros bs H.
  - now injection H as <-.
  - destruct (encode_cp c) as [b|] eqn:Ec; [|discriminate].
    destruct (encode s) as [bs'|]; [|discriminate].
    assert (bs = b ++ bs') by congruence. subst bs.
    rewrite (decode_encode_cp _ _ _ Ec), (IH _ eq_refl). reflexivity.
Qed.

(** Every code point takes at least one octet, and an ASCII one exactly
    one. *)
Lemma encode_cp_length c b :
  encode_cp c = Some b ->
  (1 <= List.length b)%nat /\ (is_ascii c = true -> List.length b = 1%nat).
Proof.
  unfold encode_cp, is_ascii.
  destruct (Z.ltb_spec c 0); [discriminate|].
  destruct (Z.ltb_spec c 0x80); [some_inj; simpl; auto|].
  destruct (Z.leb_spec 0 c); [|lia]. cbn [andb].
  destruct (Z.ltb_spec c 0x800); [some_inj; simpl; split; [lia|discriminate]|].
  destruct (Z.ltb_spec c 0x10000).
  { destruct ((0xD800 <=? c) && (c <=? 0xDFFF)); [discriminate|].
    some_inj; simpl; split; [lia|discriminate]. }
  destruct (Z.ltb_spec c 0x110000); [|discriminate].
  some_inj; simpl; split; [lia|discriminate].
Qed.

Lemma encode_length s bs :
  encode s = Some bs ->
  (List.length s <= List.length bs)%nat /\
  (forallb is_ascii s = true -> List.length bs = List.length s).
Proof.
  revert bs; induction s as [|c s IH]; simpl; intros bs H.
  - assert (bs = []) by congruence. subst. auto.
  - destruct (encode_cp c) as [b|] eqn:Ec; [|discriminate].
    destruct (encode s) as [bs'|]; [|discriminate].
    assert (bs = b ++ bs') by congruence. subst bs.
    destruct (encode_cp_length _ _ Ec) as [L1 L2].
    destruct (IH _ eq_refl) as [I1 I2].
    rewrite length_app. split; [lia|].
    intros Ha. apply andb_true_iff in Ha as [Hc Hs].
    rewrite (L2 Hc), (I2 Hs). reflexivity.
Qed.

(** Text without a carriage return passes universal newlines unchanged. *)
Lemma universal_newlines_no_cr s :
  no_cr s = true -> universal_newlines s = s.
Proof.
  induction s as [|c s IH]; simpl; [reflexivity|].
  intros H. apply andb_true_iff in H as [Hc Hs].
  destruct (c =? 13); [discriminate|]. now rewrite IH.
Qed.

End CodecFacts.

(* ====================================================================== *)
(** * The directory tree *)
(* ====================================================================== *)

Lemma lookup_put n o es : lookup_entry n (put_entry n o es) = o.
Proof.
  induction es as [|[m c0] es IH]; simpl.
  - destruct o; simpl; [now rewrite str_eqb_refl | reflexivity].
  - destruct (str_eqb m n) eqn:E.
    + destruct o; simpl; [now rewrite E | exact IH].
    + simpl. now rewrite E.
Qed.

(** A walk finds the entry at the path, and never a dangling link. *)
Lemma peek_of_walk p : forall o n,
  walk p o = inr n -> peek p o = Some n /\ n <> Dangling.
Proof.
  induction p as [|m p IH]; intros o n H; simpl in *.
  - destruct o as [[data|es| | |]|]; try discriminate;
      injection H as <-; (split; [reflexivity | discriminate]).
  - destruct o as [[data|es| | |]|]; try discriminate. now apply IH.
Qed.

Lemma walk_of_peek p : forall o n,
  peek p o = Some n -> n <> Dangling -> walk p o = inr n.
Proof.
  induction p as [|m p IH]; intros o n H Hn; simpl in *.
  - subst o. destruct n; congruence.
  - destruct o as [[data|es| | |]|]; try discriminate. now apply IH.
Qed.

(** What a walk finds is the entry at the path, unless that is a dangling
    link. *)
Lemma found_walk p o :
  found (walk p o) = match peek p o with Some Dangling => None | r => r end.
Proof.
  destruct (walk p o) as [e|n] eqn:E; simpl.
  - destruct (peek p o) as [n|] eqn:P; [|reflexivity].
    destruct n; try reflexivity;
      rewrite (walk_of_peek _ _ _ P) in E; discriminate.
  - apply peek_of_walk in E as [-> Hn]. destruct n; congruence.
Qed.

(** After [alter], the path holds what [f] made of the entry it held
    before. *)
Lemma walk_alter p f : forall o o',
  alter p f o = inr o' -> f (peek p o) = inr (peek p o').
Proof.
  induction p as [|n p IH]; intros o o' H; simpl in *.
  - exact H.
  - destruct o as [[data|es| | |]|]; try discriminate.
    destruct (alter p f (lookup_entry n es)) as [e|r] eqn:E; [discriminate|].
    injection H as <-. simpl. rewrite lookup_put. now apply IH.
Qed.

(** [alter] fails as [f] does on a node that is there. *)
Lemma alter_found_error p f e : forall o n,
  walk p o = inr n -> f (Some n) = inl e -> alter p f o = inl e.
Proof.
  induction p as [|m p IH]; intros o n Hw Hf; simpl in *.
  - destruct o as [[data|es| | |]|]; try discriminate; now injection Hw as <-.
  - destruct o as [[data|es| | |]|]; try discriminate.
    now rewrite (IH _ _ Hw Hf).
Qed.

(* ====================================================================== *)
(** * Running computations *)
(* ====================================================================== *)

Lemma bind_return {A B} (m : M A) (k : A -> M B) fs a fs1 :
  m fs = (Return a, fs1) -> bind m k fs = k a fs1.
Proof. unfold bind. now intros ->. Qed.

Lemma bind_raise {A B} (m : M A) (k : A -> M B) fs e fs1 :
  m fs = (Raise e, fs1) -> bind m k fs = (Raise e, fs1).
Proof. unfold bind. now intros ->. Qed.

Lemma bind_inv {A B} (m : M A) (k : A -> M B) fs b fs' :
  bind m k fs = (Return b, fs') ->
  exists a fs1, m fs = (Return a, fs1) /\ k a fs1 = (Return b, fs').
Proof.
  unfold bind. destruct (m fs) as [[a|e] fs1]; [eauto | discriminate].
Qed.

Lemma raise_if_inv c e fs fs' :
  raise_if c e fs = (Return tt, fs') -> c = false /\ fs' = fs.
Proof.
  unfold raise_if, raise, ret. destruct c; [discriminate|].
  intros [= <-]. auto.
Qed.

Lemma respond_inv m fs b fs' :
  respond m fs = (OK b, fs') -> m fs = (Return b, fs').
Proof.
  unfold respond. destruct (m fs) as [[a|e] fs1].
  - now intros [= -> ->].
  - destruct e; discriminate.
Qed.

Section LibraryFacts.

Variable env : Env.

Lemma os_stat_found p fs n :
  walk p (Some fs) = inr n -> n <> Denied -> os_stat p fs = (Return n, fs).
Proof.
  unfold os_stat. intros Hw Hn. rewrite Hw.
  apply peek_of_walk in Hw as [_ Hd]. destruct n; congruence.
Qed.

Lemma stat_test_found test p fs n :
  walk p (Some fs) = inr n -> n <> Denied ->
  stat_test env test p fs = (Return (test n), fs).
Proof.
  intros Hw Hn. unfold stat_test, try_except, bind.
  now rewrite (os_stat_found _ _ _ Hw Hn).
Qed.

Lemma stat_test_state test p fs r fs' :
  stat_test env test p fs = (r, fs') -> fs' = fs.
Proof.
  unfold stat_test, try_except, bind, os_stat, ret, raise.
  destruct (walk p (Some fs)) as [e|[]]; simpl;
    repeat match goal with |- context [if ?c then _ else _] => destruct c end;
    now intros [= _ <-].
Qed.

Lemma stat_test_true test p fs fs' :
  stat_test env test p fs = (Return true, fs') ->
  exists n, walk p (Some fs) = inr n /\ test n = true /\ n <> Denied.
Proof.
  unfold stat_test, try_except, bind, os_stat, ret, raise.
  destruct (walk p (Some fs)) as [e|n]; simpl.
  - destruct (ignore_error env e); discriminate.
  - destruct n; simpl;
      try (intros [= E _]; eexists; repeat split; [exact E | discriminate]);
      try (destruct (swallow_eacces env)); discriminate.
Qed.

Lemma is_dir_true p fs fs' :
  is_dir env p fs = (Return true, fs') ->
  exists es, walk p (Some fs) = inr (Dir es).
Proof.
  intros H. apply stat_test_true in H as (n & Hw & Ht & _).
  destruct n; try discriminate. eauto.
Qed.

Lemma update_inv p f fs fs' :
  update p f fs = (Return tt, fs') -> alter p f (Some fs) = inr (Some fs').
Proof.
  unfold update. destruct (alter p f (Some fs)) as [e|[r|]]; try discriminate.
  now intros [= ->].
Qed.

(** After a successful [update] the path holds what [f] returned. *)
Lemma update_walk p f fs fs' :
  update p f fs = (Return tt, fs') ->
  f (peek p (Some fs)) = inr (peek p (Some fs')).
Proof. intros H. now apply walk_alter, update_inv. Qed.

Lemma os_mkdir_exists p fs n :
  walk p (Some fs) = inr n -> os_mkdir p fs = (Raise FileExistsError, fs).
Proof.
  intros Hw. unfold os_mkdir, update.
  now rewrite (alter_found_error _ _ FileExistsError _ _ Hw eq_refl).
Qed.

Lemma os_mkdir_ok p fs fs' :
  os_mkdir p fs = (Return tt, fs') -> walk p (Some fs') = inr (Dir []).
Proof.
  intros H. apply update_walk in H.
  destruct (peek p (Some fs)); [discriminate|].
  injection H as H. symmetry in H. apply walk_of_peek; [exact H | discriminate].
Qed.

End LibraryFacts.

(* ====================================================================== *)
(** * Access levels and authentication *)
(* ====================================================================== *)

Lemma LEVELS_access_of l : getitem LEVELS (key l) = Some (access_of l).
Proof. destruct l; reflexivity. Qed.

(** Every level of the table grants reading. *)
Lemma access_of_fs_read l : Level.fs_read (access_of l) = true.
Proof. destruct l; reflexivity. Qed.

(** C1. The capability table is monotonic: whatever Limited grants Solid
    grants, whatever Solid grants Full grants; no level grants delete
    without write, and only Full grants execute. *)
Theorem capabilities_monotonic :
  forall c : Capability,
    (isAllowed Limited c = true -> isAllowed Solid c = true) /\
    (isAllowed Solid c = true -> isAllowed Full c = true) /\
    (forall l, isAllowed l CanDelete = true -> isAllowed l CanWrite = true) /\
    (forall l, isAllowed l CanExecute = true -> l = Full).
Proof.
  intros c. repeat split.
  - destruct c; vm_compute; congruence.
  - destruct c; vm_compute; congruence.
  - intros [] H; vm_compute in *; congruence.
  - intros [] H; vm_compute in H; congruence.
Qed.

Section Authentication.

Variable env : Env.
Variable TOKEN : str.
Variable ACCESS : Level.t.

Let unauthenticated : Exn := HTTPException 401 (lit "Missing Authorization header").
Let forbidden : Exn := HTTPException 403 (lit "Invalid token").

Lemma require_auth_no_shape authorization fs :
  ~ bearer_shape authorization ->
  require_auth TOKEN authorization fs = (Raise unauthenticated, fs).
Proof.
  intros Hn. unfold require_auth.
  destruct authorization as [a|]; [|reflexivity].
  destruct a as [|c a]; [reflexivity|].
  cbn [not_ orb].
  destruct (startswith (c :: a) (lit "Bearer ")) eqn:E; [|reflexivity].
  exfalso. apply Hn. apply startswith_inv in E as [rest E].
  exists rest. now rewrite E.
Qed.

Lemma require_auth_bearer token fs :
  require_auth TOKEN (Some (lit "Bearer " ++ token)) fs
  = if str_eqb token TOKEN then (Return token, fs) else (Raise forbidden, fs).
Proof.
  unfold require_auth. rewrite startswith_app.
  change (lit "Bearer ") with [66; 101; 97; 114; 101; 114; 32].
  cbn [app not_ orb negb split1 Z.eqb Pos.eqb snd].
  destruct (str_eqb token TOKEN); reflexivity.
Qed.

Lemma require_auth_ok fs :
  require_auth TOKEN (Some (lit "Bearer " ++ TOKEN)) fs = (Return TOKEN, fs).
Proof. now rewrite require_auth_bearer, str_eqb_refl. Qed.

(** The three outcomes of [require_auth], none of which touches the tree. *)
Lemma require_auth_cases authorization fs :
  require_auth TOKEN authorization fs = (Raise unauthenticated, fs) \/
  require_auth TOKEN authorization fs = (Raise forbidden, fs) \/
  (authorization = Some (lit "Bearer " ++ TOKEN) /\
   require_auth TOKEN authorization fs = (Return TOKEN, fs)).
Proof.
  destruct authorization as [a|];
    [|left; apply require_auth_no_shape; intros [t Ht]; discriminate].
  destruct (startswith a (lit "Bearer ")) eqn:E.
  - apply startswith_inv in E as [token ->].
    rewrite require_auth_bearer.
    destruct (str_eqb token TOKEN) eqn:Et; [|now right; left].
    apply str_eqb_eq in Et. subst token. right; right. auto.
  - left. apply require_auth_no_shape. intros [t Ht].
    assert (a = lit "Bearer " ++ t) by congruence. subst a.
    now rewrite startswith_app in E.
Qed.

(** Every route behind [require_auth] stops where it raises. *)
Lemma handle_auth_raise authorization r fs e :
  require_auth TOKEN authorization fs = (Raise e, fs) ->
  handle env TOKEN ACCESS authorization r fs = (Raise e, fs).
Proof.
  intros H.
  destruct r; cbn [handle];
    unfold fs_ls, fs_read, fs_write, fs_mkdir, fs_rm, exec_command,
           chat_completions;
    now apply bind_raise.
Qed.

Lemma handle_capability_off r c fs :
  required_capability r = Some c -> grants ACCESS c = false ->
  handle env TOKEN ACCESS (Some (lit "Bearer " ++ TOKEN)) r fs
  = (Raise (HTTPException 403 (disabled_detail c)), fs).
Proof.
  intros Hr Hc.
  destruct r; cbn [required_capability] in Hr; try discriminate;
    injection Hr as <-; cbn [grants] in Hc; cbn [handle];
    unfold fs_ls, fs_read, fs_write, fs_mkdir, fs_rm, exec_command;
    rewrite (bind_return _ _ _ _ _ (require_auth_ok fs));
    rewrite Hc; reflexivity.
Qed.

End Authentication.

(** C2. On every route behind [require_auth], whatever the access level,
    the request and the tree: a header that is absent or not of the shape
    [Bearer <token>] is answered 401; a header of that shape whose token
    differs from [TOKEN] is answered 403; with the token equal to [TOKEN]
    authentication succeeds.  The tree is untouched in the two failures. *)
Theorem authentication_outcomes :
  forall env TOKEN ACCESS authorization r fs,
    (~ bearer_shape authorization ->
     serve env TOKEN ACCESS authorization r fs
     = (Error 401 (lit "Missing Authorization header"), fs)) /\
    (forall token,
        authorization = Some (lit "Bearer " ++ token) -> token <> TOKEN ->
        serve env TOKEN ACCESS authorization r fs
        = (Error 403 (lit "Invalid token"), fs)) /\
    (authorization = Some (lit "Bearer " ++ TOKEN) ->
     require_auth TOKEN authorization fs = (Return TOKEN, fs)).
Proof.
  intros env TOKEN ACCESS authorization r fs. repeat split.
  - intros Hn. unfold serve, respond.
    now rewrite (handle_auth_raise env TOKEN ACCESS _ r _ _
                   (require_auth_no_shape TOKEN _ fs Hn)).
  - intros token -> Hne. unfold serve, respond.
    assert (E : require_auth TOKEN (Some (lit "Bearer " ++ token)) fs
                = (Raise (HTTPException 403 (lit "Invalid token")), fs))
      by (now rewrite require_auth_bearer, str_eqb_neq).
    now rewrite (handle_auth_raise env TOKEN ACCESS _ r _ _ E).
  - intros ->. apply require_auth_ok.
Qed.

Lemma authentication_outcomes_witness :
  serve Demo.env Demo.TOKEN full None
        (POST_fs_rm (mkRmRequest (lit "/tmp/t.txt"))) Demo.tree
  = (Error 401 (lit "Missing Authorization header"), Demo.tree) /\
  serve Demo.env Demo.TOKEN full (Some (lit "Bearer guess"))
        (POST_fs_rm (mkRmRequest (lit "/tmp/t.txt"))) Demo.tree
  = (Error 403 (lit "Invalid token"), Demo.tree) /\
  require_auth Demo.TOKEN Demo.bearer Demo.tree = (Return Demo.TOKEN, Demo.tree).
Proof.
  split; [|split].
  - apply (authentication_outcomes Demo.env Demo.TOKEN full None).
    intros [t Ht]. discriminate.
  - apply (authentication_outcomes Demo.env Demo.TOKEN full
             (Some (lit "Bearer guess")) _ Demo.tree) with (token := lit "guess").
    + reflexivity.
    + intros H. vm_compute in H. discriminate.
  - apply (authentication_outcomes Demo.env Demo.TOKEN full Demo.bearer
             (GET_fs_ls []) Demo.tree).
    reflexivity.
Defined.

(** C3. With the correct credential, a route whose capability the active
    level does not grant is answered 403 and the tree is untouched: the
    test comes before the target is looked at and before anything is
    done.  Whatever the header, such a request changes nothing and is
    answered 401 or 403, never 404. *)
Theorem capability_denied_first :
  forall env TOKEN ACCESS r c fs,
    required_capability r = Some c ->
    grants ACCESS c = false ->
    serve env TOKEN ACCESS (Some (lit "Bearer " ++ TOKEN)) r fs
    = (Error 403 (disabled_detail c), fs) /\
    (forall authorization,
        snd (serve env TOKEN ACCESS authorization r fs) = fs /\
        (status (fst (serve env TOKEN ACCESS authorization r fs)) = 401 \/
         status (fst (serve env TOKEN ACCESS authorization r fs)) = 403)).
Proof.
  intros env TOKEN ACCESS r c fs Hr Hc.
  assert (E : serve env TOKEN ACCESS (Some (lit "Bearer " ++ TOKEN)) r fs
              = (Error 403 (disabled_detail c), fs)).
  { unfold serve, respond.
    now rewrite (handle_capability_off env TOKEN ACCESS r c fs Hr Hc). }
  split; [exact E|].
  intros authorization.
  destruct (require_auth_cases TOKEN authorization fs) as [H|[H|[-> _]]].
  - unfold serve, respond.
    rewrite (handle_auth_raise env TOKEN ACCESS _ r _ _ H). simpl. auto.
  - unfold serve, respond.
    rewrite (handle_auth_raise env TOKEN ACCESS _ r _ _ H). simpl. auto.
  - rewrite E. simpl. auto.
Qed.

Lemma capability_denied_first_witness :
  serve Demo.env Demo.TOKEN solid Demo.bearer
        (POST_fs_rm (mkRmRequest (lit "/tmp/t.txt"))) Demo.tree
  = (Error 403 (lit "Delete access disabled. Start with --full"), Demo.tree).
Proof.
  apply (capability_denied_first Demo.env Demo.TOKEN solid
           (POST_fs_rm (mkRmRequest (lit "/tmp/t.txt"))) CanDelete Demo.tree);
    reflexivity.
Defined.

(* ====================================================================== *)
(** * Creating directories *)
(* ====================================================================== *)

Section Mkdir.

Variable env : Env.

Lemma mkdir_from_eq rp :
  mkdir_from env rp
  = try_except (os_mkdir (rev rp)) (fun e =>
      match e with
      | FileNotFoundError =>
          match rp with
          | [] => raise e
          | _ :: rparent =>
              bind (mkdir_from env rparent) (fun _ =>
                try_except (os_mkdir (rev rp)) (fun e' =>
                  match e' with
                  | FileNotFoundError => raise e'
                  | _ =>
                      if is_OSError e'
                      then bind (is_dir env (rev rp)) (fun d => raise_if (negb d) e')
                      else raise e'
                  end))
          end
      | _ =>
          if is_OSError e
          then bind (is_dir env (rev rp)) (fun d => raise_if (negb d) e)
          else raise e
      end).
Proof. destruct rp; reflexivity. Qed.

(** [exist_ok]: on a directory that is there, nothing happens. *)
Lemma Path_mkdir_exists p fs es :
  walk p (Some fs) = inr (Dir es) -> Path_mkdir env p fs = (Return tt, fs).
Proof.
  intros Hw. unfold Path_mkdir. rewrite mkdir_from_eq, rev_involutive.
  unfold try_except. rewrite (os_mkdir_exists _ _ _ Hw). cbn [is_OSError].
  unfold bind, is_dir.
  rewrite (stat_test_found env S_ISDIR _ _ _ Hw) by discriminate.
  reflexivity.
Qed.

(** The [except OSError] arm: it returns only over a directory. *)
Lemma exist_ok_inv p e fs fs' :
  bind (is_dir env p) (fun d => raise_if (negb d) e) fs = (Return tt, fs') ->
  fs' = fs /\ exists es, walk p (Some fs) = inr (Dir es).
Proof.
  intros H. apply bind_inv in H as (d & fs1 & Hd & Hr).
  apply raise_if_inv in Hr as [Hneg ->].
  destruct d; [|discriminate].
  pose proof (stat_test_state _ _ _ _ _ _ Hd). subst fs1.
  split; [reflexivity|]. now apply is_dir_true in Hd.
Qed.

(** Where [Path.mkdir] returns, the path names a directory. *)
Lemma mkdir_from_ok rp fs fs' :
  mkdir_from env rp fs = (Return tt, fs') ->
  exists es, walk (rev rp) (Some fs') = inr (Dir es).
Proof.
  rewrite mkdir_from_eq. unfold try_except at 1.
  destruct (os_mkdir (rev rp) fs) as [[[]|e] fs1] eqn:E1.
  - intros [= <-]. exists []. eapply os_mkdir_ok; eassumption.
  - destruct e; cbn [is_OSError]; unfold raise; try discriminate;
      try (intros H; apply exist_ok_inv in H as [-> H]; exact H).
    destruct rp as [|n rparent]; [discriminate|].
    intros H. apply bind_inv in H as ([] & fs2 & _ & H).
    unfold try_except in H.
    destruct (os_mkdir (rev (n :: rparent)) fs2) as [[[]|e'] fs3] eqn:E2.
    + injection H as <-. exists []. eapply os_mkdir_ok; eassumption.
    + destruct e'; cbn [is_OSError] in H; unfold raise in H; try discriminate;
        apply exist_ok_inv in H as [-> H]; exact H.
Qed.

Lemma Path_mkdir_ok p fs fs' :
  Path_mkdir env p fs = (Return tt, fs') ->
  exists es, walk p (Some fs') = inr (Dir es).
Proof.
  unfold Path_mkdir. intros H. apply mkdir_from_ok in H.
  now rewrite rev_involutive in H.
Qed.

(** A missing entry of an existing directory can be made. *)
Lemma alter_create f r n : forall q o es,
  walk q o = inr (Dir es) -> lookup_entry n es = None -> f None = inr r ->
  exists t, alter (q ++ [n]) f o = inr (Some t).
Proof.
  induction q as [|m q IH]; intros o es Hw Hl Hf; simpl in *.
  - apply (peek_of_walk []) in Hw as [Hw _]. simpl in Hw. subst o.
    rewrite Hl, Hf. eauto.
  - destruct o as [[data|es0| | |]|]; try discriminate.
    destruct (IH _ _ Hw Hl Hf) as [t ->]. eauto.
Qed.

Lemma Path_mkdir_create q n fs es :
  walk q (Some fs) = inr (Dir es) -> lookup_entry n es = None ->
  exists fs', Path_mkdir env (q ++ [n]) fs = (Return tt, fs').
Proof.
  intros Hw Hl. unfold Path_mkdir. rewrite mkdir_from_eq, rev_involutive.
  unfold try_except, os_mkdir, update.
  destruct (alter_create
              (fun o => match o with
                        | Some _ => inl FileExistsError
                        | None => inr (Some (Dir []))
                        end) _ n q (Some fs) es Hw Hl eq_refl) as [t ->].
  eauto.
Qed.

Variable TOKEN : str.
Variable ACCESS : Level.t.

Lemma fs_mkdir_run req fs :
  Level.fs_write ACCESS = true ->
  fs_mkdir env TOKEN ACCESS req (Some (lit "Bearer " ++ TOKEN)) fs
  = match Path_mkdir env (resolve env (mk_path req)) fs with
    | (Return _, fs') => (Return (Created (resolve env (mk_path req)) true), fs')
    | (Raise e, fs') => (Raise e, fs')
    end.
Proof.
  intros Hw. unfold fs_mkdir.
  rewrite (bind_return _ _ _ _ _ (require_auth_ok TOKEN fs)), Hw.
  cbn [negb raise_if]. unfold bind at 1. cbn [ret]. unfold bind.
  destruct (Path_mkdir env (resolve env (mk_path req)) fs) as [[[]|e] fs'];
    reflexivity.
Qed.

End Mkdir.

(** C6. [mkdir] is idempotent.  Under a level that grants writing and
    with the correct credential: on a directory that already exists it
    succeeds with [created: true] and changes nothing; in an existing
    directory it creates a missing entry; and after any successful call
    the same call succeeds again with [created: true]. *)
Theorem mkdir_idempotent :
  forall env TOKEN ACCESS P fs,
    Level.fs_write ACCESS = true ->
    let authorization := Some (lit "Bearer " ++ TOKEN) in
    let request := POST_fs_mkdir (mkMkdirRequest P) in
    let created := OK (Created (resolve env P) true) in
    (forall es,
        walk (resolve env P) (Some fs) = inr (Dir es) ->
        serve env TOKEN ACCESS authorization request fs = (created, fs)) /\
    (forall q n es,
        resolve env P = q ++ [n] ->
        walk q (Some fs) = inr (Dir es) -> lookup_entry n es = None ->
        exists fs', serve env TOKEN ACCESS authorization request fs = (created, fs')) /\
    (forall b fs',
        serve env TOKEN ACCESS authorization request fs = (OK b, fs') ->
        OK b = created /\
        serve env TOKEN ACCESS authorization request fs' = (created, fs')).
Proof.
  intros env TOKEN ACCESS P fs Hw authorization request created.
  subst authorization request created.
  unfold serve, respond; cbn [handle].
  repeat split.
  - intros es Hd. rewrite (fs_mkdir_run env TOKEN ACCESS _ _ Hw). cbn [mk_path].
    now rewrite (Path_mkdir_exists env _ _ _ Hd).
  - intros q n es Hp Hd Hl. rewrite (fs_mkdir_run env TOKEN ACCESS _ _ Hw).
    cbn [mk_path]. rewrite Hp.
    destruct (Path_mkdir_create env q n fs es Hd Hl) as [fs' ->]. eauto.
  - rewrite (fs_mkdir_run env TOKEN ACCESS _ _ Hw) in H. cbn [mk_path] in H.
    destruct (Path_mkdir env (resolve env P) fs) as [[[]|e] fs1];
      [congruence | destruct e; discriminate].
  - rewrite (fs_mkdir_run env TOKEN ACCESS _ _ Hw) in H. cbn [mk_path] in H.
    rewrite (fs_mkdir_run env TOKEN ACCESS _ _ Hw). cbn [mk_path].
    destruct (Path_mkdir env (resolve env P) fs) as [[[]|e] fs1] eqn:E;
      [|destruct e; discriminate].
    injection H as _ <-.
    destruct (Path_mkdir_ok env _ _ _ E) as [es Hd].
    now rewrite (Path_mkdir_exists env _ _ _ Hd).
Qed.

Lemma mkdir_idempotent_witness :
  exists fs',
    serve Demo.env Demo.TOKEN solid Demo.bearer
          (POST_fs_mkdir (mkMkdirRequest (lit "/srv/a/b"))) Demo.tree
    = (OK (Created [lit "srv"; lit "a"; lit "b"] true), fs') /\
    serve Demo.env Demo.TOKEN solid Demo.bearer
          (POST_fs_mkdir (mkMkdirRequest (lit "/srv/a/b"))) fs'
    = (OK (Created [lit "srv"; lit "a"; lit "b"] true), fs').
Proof.
  eexists. split; [reflexivity|].
  apply (mkdir_idempotent Demo.env Demo.TOKEN solid (lit "/srv/a/b") Demo.tree
           eq_refl) with (b := Created [lit "srv"; lit "a"; lit "b"] true).
  reflexivity.
Defined.

(* ====================================================================== *)
(** * Writing and reading files *)
(* ====================================================================== *)

Section WriteRead.

Variable env : Env.
Variable TOKEN : str.
Variable ACCESS : Level.t.

(** What the text of a returning [f.write] leaves at the path. *)
Lemma f_write_inv p C fs n fs' :
  f_write p C fs = (Return n, fs') ->
  n = List.length C /\
  exists bs, Codec.encode C = Some bs /\
             os_write bs (peek p (Some fs)) = inr (peek p (Some fs')).
Proof.
  unfold f_write. destruct (Codec.encode C) as [bs|]; [|discriminate].
  intros H. apply bind_inv in H as ([] & fs1 & Hu & Hr).
  injection Hr as <- <-. split; [reflexivity|].
  exists bs. split; [reflexivity|]. now apply update_walk.
Qed.

(** After [Path.write_text] the path holds the encoded text and nothing
    else, unless it names a device. *)
Lemma write_text_stored p C fs n fs' :
  write_text p C fs = (Return n, fs') ->
  n = List.length C /\
  exists bs, Codec.encode C = Some bs /\
             (walk p (Some fs') = inr (File bs) \/ walk p (Some fs') = inr Sink).
Proof.
  unfold write_text. intros H. apply bind_inv in H as ([] & fs1 & Hu & Hw).
  apply update_walk in Hu. apply f_write_inv in Hw as (-> & bs & He & Hw).
  split; [reflexivity|]. exists bs. split; [exact He|].
  destruct (peek p (Some fs)) as [[]|]; simpl in Hu; try discriminate;
    injection Hu as Hu; rewrite <- Hu in Hw; simpl in Hw; injection Hw as Hw;
    symmetry in Hw; apply walk_of_peek in Hw; try discriminate; auto.
Qed.

(** After appending, the path holds what it held, then the encoded text. *)
Lemma append_text_stored p C fs n fs' :
  append_text p C fs = (Return n, fs') ->
  n = List.length C /\
  exists bs, Codec.encode C = Some bs /\
    (walk p (Some fs')
     = inr (File (match walk p (Some fs) with inr (File old) => old | _ => [] end ++ bs))
     \/ walk p (Some fs') = inr Sink).
Proof.
  unfold append_text. intros H. apply bind_inv in H as ([] & fs1 & Hu & Hw).
  apply update_walk in Hu. apply f_write_inv in Hw as (-> & bs & He & Hw).
  split; [reflexivity|]. exists bs. split; [exact He|].
  assert (Hold : match walk p (Some fs) with inr (File old) => old | _ => [] end
                 = match peek p (Some fs) with Some (File old) => old | _ => [] end).
  { destruct (walk p (Some fs)) as [e|n0] eqn:W.
    - destruct (peek p (Some fs)) as [[]|] eqn:P; try reflexivity.
      rewrite (walk_of_peek _ _ _ P) in W by discriminate. discriminate.
    - apply peek_of_walk in W as [-> _]. reflexivity. }
  rewrite Hold.
  destruct (peek p (Some fs)) as [[]|]; simpl in Hu; try discriminate;
    injection Hu as Hu; rewrite <- Hu in Hw; simpl in Hw; injection Hw as Hw;
    symmetry in Hw; apply walk_of_peek in Hw; try discriminate; auto.
Qed.

(** A write request that is answered 200 has passed authentication and the
    capability test, made the parent directories and written the text. *)
Lemma fs_write_inv req authorization fs b fs' :
  fs_write env TOKEN ACCESS req authorization fs = (Return b, fs') ->
  authorization = Some (lit "Bearer " ++ TOKEN) /\
  Level.fs_write ACCESS = true /\
  b = Written (resolve env (wr_path req)) (List.length (wr_content req)) (wr_mode req) /\
  exists fs1 n,
    Path_mkdir env (parent (resolve env (wr_path req))) fs = (Return tt, fs1) /\
    (if str_eqb (wr_mode req) (lit "append")
     then append_text (resolve env (wr_path req)) (wr_content req)
     else write_text (resolve env (wr_path req)) (wr_content req)) fs1
    = (Return n, fs').
Proof.
  unfold fs_write. intros H.
  apply bind_inv in H as (tok & fs0 & Ha & H).
  destruct (require_auth_cases TOKEN authorization fs) as [E|[E|[E _]]];
    try congruence.
  assert (fs0 = fs) by (subst authorization; rewrite require_auth_ok in Ha; congruence).
  subst fs0.
  apply bind_inv in H as ([] & fs0 & Hc & H).
  apply raise_if_inv in Hc as [Hc ->]. apply negb_false_iff in Hc.
  apply bind_inv in H as ([] & fs1 & Hm & H).
  apply bind_inv in H as (n & fs2 & Hw & H).
  injection H as <- <-.
  repeat split; auto. exists fs1, n. auto.
Qed.

(** Reading a regular file: its text after universal newlines, or the
    binary marker when it does not decode. *)
Lemma fs_read_file P fs data :
  Level.fs_read ACCESS = true ->
  walk (resolve env P) (Some fs) = inr (File data) ->
  fs_read env TOKEN ACCESS P (Some (lit "Bearer " ++ TOKEN)) fs
  = match Codec.decode data with
    | Some s =>
        (Return (ReadText (resolve env P) (Codec.universal_newlines s)
                          (List.length (Codec.universal_newlines s))), fs)
    | None =>
        (Return (ReadBinary (resolve env P) (lit "binary file") (List.length data)), fs)
    end.
Proof.
  intros Hr Hw. unfold fs_read.
  rewrite (bind_return _ _ _ _ _ (require_auth_ok TOKEN fs)), Hr.
  cbn [negb raise_if]. unfold bind at 1. cbn [ret].
  unfold exists_, is_file.
  rewrite (bind_return _ _ _ _ _
             (stat_test_found env _ _ _ _ Hw ltac:(discriminate))).
  cbn [negb raise_if]. unfold bind at 1. cbn [ret].
  rewrite (bind_return _ _ _ _ _
             (stat_test_found env _ _ _ _ Hw ltac:(discriminate))).
  cbn [S_ISREG negb raise_if]. unfold bind at 1. cbn [ret].
  unfold try_except, bind, read_text. rewrite Hw.
  destruct (Codec.decode data) as [s|]; [reflexivity|].
  now rewrite (os_stat_found _ _ _ Hw ltac:(discriminate)).
Qed.

End WriteRead.

(** C4, as stated, fails: a carriage return does not survive the reading.
    Writing ["a\r\nb"] to /tmp/r.txt and reading it gives ["a\nb"], size 3. *)
Lemma round_trip_fails : ~ round_trip_as_stated.
Proof.
  intros H.
  pose proof (H Demo.env Demo.TOKEN Solid Demo.bearer (lit "/tmp/r.txt")
                [97; 13; 10; 98] Demo.tree _ _ eq_refl) as E.
  vm_compute in E. discriminate.
Qed.

(** C4, amended.  After a write request in mode [write] that is answered
    200 and has left a regular file at the target, a read request for the
    same path returns the written text with universal newlines applied
    (CR LF and CR read as LF) and the length of that text; for a text
    without carriage returns that is the text itself and its length. *)
Theorem write_then_read :
  forall env TOKEN l authorization P C fs b fs',
    serve env TOKEN (access_of l) authorization
          (POST_fs_write (mkWriteRequest P C (lit "write"))) fs = (OK b, fs') ->
    (exists data, walk (resolve env P) (Some fs') = inr (File data)) ->
    serve env TOKEN (access_of l) authorization (GET_fs_read P) fs'
    = (OK (ReadText (resolve env P) (Codec.universal_newlines C)
                    (List.length (Codec.universal_newlines C))), fs') /\
    (Codec.no_cr C = true ->
     serve env TOKEN (access_of l) authorization (GET_fs_read P) fs'
     = (OK (ReadText (resolve env P) C (List.length C)), fs')).
Proof.
  intros env TOKEN l authorization P C fs b fs' Hw [data Hd].
  apply respond_inv in Hw. cbn [handle] in Hw.
  apply fs_write_inv in Hw as (-> & _ & _ & fs1 & n & _ & Hw).
  cbn [wr_mode wr_path wr_content] in Hw.
  change (str_eqb (lit "write") (lit "append")) with false in Hw. cbv iota in Hw.
  apply write_text_stored in Hw as (_ & bs & He & [Hf|Hf]); [|congruence].
  assert (E : serve env TOKEN (access_of l) (Some (lit "Bearer " ++ TOKEN))
                    (GET_fs_read P) fs'
              = (OK (ReadText (resolve env P) (Codec.universal_newlines C)
                              (List.length (Codec.universal_newlines C))), fs')).
  { unfold serve, respond. cbn [handle].
    rewrite (fs_read_file env TOKEN _ P fs' bs (access_of_fs_read l) Hf).
    now rewrite (CodecFacts.decode_encode _ _ He). }
  split; [exact E|].
  intros Hn. rewrite E. now rewrite (CodecFacts.universal_newlines_no_cr _ Hn).
Qed.

Lemma write_then_read_witness :
  exists fs',
    serve Demo.env Demo.TOKEN solid Demo.bearer
          (POST_fs_write (mkWriteRequest (lit "/srv/new/t.txt") (lit "hi") (lit "write")))
          Demo.tree
    = (OK (Written [lit "srv"; lit "new"; lit "t.txt"] 2 (lit "write")), fs') /\
    serve Demo.env Demo.TOKEN solid Demo.bearer (GET_fs_read (lit "/srv/new/t.txt")) fs'
    = (OK (ReadText [lit "srv"; lit "new"; lit "t.txt"] (lit "hi") 2), fs').
Proof.
  eexists. split; [reflexivity|].
  apply (write_then_read Demo.env Demo.TOKEN Solid Demo.bearer
           (lit "/srv/new/t.txt") (lit "hi") Demo.tree
           (Written [lit "srv"; lit "new"; lit "t.txt"] 2 (lit "write")) _ eq_refl).
  - eexists. reflexivity.
  - reflexivity.
Defined.

(** C5, as stated, fails: writing ["é"] (one character, two octets in
    UTF-8) to /tmp/e.txt reports 1 while the file holds 2 bytes. *)
Lemma written_is_not_byte_length : ~ written_is_byte_length_as_stated.
Proof.
  intros H.
  pose proof (H Demo.env Demo.TOKEN solid Demo.bearer (lit "/tmp/e.txt") [233]
                Demo.tree [lit "tmp"; lit "e.txt"] 1%nat (lit "write") _
                [195; 169] eq_refl eq_refl) as E.
  discriminate.
Qed.

(** C5, amended.  A write request that is answered 200 reports the number
    of characters of the content, [len(content)], and the mode as it was
    sent.  The octets written are the UTF-8 encoding of the content: never
    fewer than the count, and exactly as many when the content is ASCII.
    In a regular file they follow what the file held in mode [append] and
    are all it holds otherwise. *)
Theorem written_counts_characters :
  forall env TOKEN ACCESS authorization req fs target w m fs',
    serve env TOKEN ACCESS authorization (POST_fs_write req) fs
    = (OK (Written target w m), fs') ->
    w = List.length (wr_content req) /\ m = wr_mode req /\
    exists bs,
      Codec.encode (wr_content req) = Some bs /\
      (w <= List.length bs)%nat /\
      (forallb Codec.is_ascii (wr_content req) = true -> List.length bs = w) /\
      (forall data,
          walk target (Some fs') = inr (File data) ->
          if str_eqb (wr_mode req) (lit "append")
          then exists old, data = old ++ bs
          else data = bs).
Proof.
  intros env TOKEN ACCESS authorization req fs target w m fs' H.
  apply respond_inv in H. cbn [handle] in H.
  apply fs_write_inv in H as (_ & _ & Hb & fs1 & n & _ & Hw).
  injection Hb as -> -> ->.
  split; [reflexivity|]. split; [reflexivity|].
  destruct (str_eqb (wr_mode req) (lit "append")).
  - apply append_text_stored in Hw as (_ & bs & He & Hs).
    exists bs. destruct (CodecFacts.encode_length _ _ He) as [L1 L2].
    repeat split; auto.
    intros data Hd. destruct Hs as [Hs|Hs]; [|congruence].
    rewrite Hs in Hd. injection Hd as <-. eauto.
  - apply write_text_stored in Hw as (_ & bs & He & Hs).
    exists bs. destruct (CodecFacts.encode_length _ _ He) as [L1 L2].
    repeat split; auto.
    intros data Hd. destruct Hs as [Hs|Hs]; congruence.
Qed.

Lemma written_counts_characters_witness :
  2%nat = List.length (lit "hi") /\ lit "write" = lit "write" /\
  exists bs,
    Codec.encode (lit "hi") = Some bs /\ (2 <= List.length bs)%nat /\
    (forallb Codec.is_ascii (lit "hi") = true -> List.length bs = 2%nat) /\
    (forall data,
        walk [lit "tmp"; lit "t.txt"]
             (Some (snd (serve Demo.env Demo.TOKEN full Demo.bearer
                           (POST_fs_write (mkWriteRequest (lit "/tmp/t.txt") (lit "hi")
                                                          (lit "write")))
                           Demo.tree)))
        = inr (File data) ->
        if str_eqb (lit "write") (lit "append")
        then exists old, data = old ++ bs
        else data = bs).
Proof.
  apply (written_counts_characters Demo.env Demo.TOKEN full Demo.bearer
           (mkWriteRequest (lit "/tmp/t.txt") (lit "hi") (lit "write")) Demo.tree
           [lit "tmp"; lit "t.txt"] 2%nat (lit "write")).
  reflexivity.
Defined.

(** C10. The mode of a write request is not validated.  With any mode
    other than ["append"] the request does what it does in mode ["write"]
    and is answered the same, except that a 200 response carries the mode
    as it was sent; after such a response a regular file at the target
    holds the encoded content and nothing of what it held before. *)
Theorem unknown_mode_is_write :
  forall env TOKEN ACCESS authorization P C mode fs,
    mode <> lit "append" ->
    serve env TOKEN ACCESS authorization (POST_fs_write (mkWriteRequest P C mode)) fs
    = match serve env TOKEN ACCESS authorization
                  (POST_fs_write (mkWriteRequest P C (lit "write"))) fs with
      | (OK (Written target w _), fs') => (OK (Written target w mode), fs')
      | other => other
      end /\
    (forall target w m fs',
        serve env TOKEN ACCESS authorization (POST_fs_write (mkWriteRequest P C mode)) fs
        = (OK (Written target w m), fs') ->
        m = mode /\ w = List.length C /\
        forall data, walk target (Some fs') = inr (File data) ->
                     Codec.encode C = Some data).
Proof.
  intros env TOKEN ACCESS authorization P C mode fs Hm.
  split.
  - unfold serve, respond. cbn [handle]. unfold fs_write.
    cbn [wr_mode wr_path wr_content].
    rewrite (str_eqb_neq _ _ Hm).
    change (str_eqb (lit "write") (lit "append")) with false. cbv iota.
    unfold bind.
    destruct (require_auth TOKEN authorization fs) as [[tok|e] fs0];
      [|destruct e; reflexivity].
    destruct (raise_if _ _ fs0) as [[[]|e] fs1]; [|destruct e; reflexivity].
    destruct (Path_mkdir env _ fs1) as [[[]|e] fs2]; [|destruct e; reflexivity].
    destruct (write_text _ C fs2) as [[n|e] fs3]; [|destruct e; reflexivity].
    reflexivity.
  - intros target w m fs' H.
    apply respond_inv in H. cbn [handle] in H.
    apply fs_write_inv in H as (_ & _ & Hb & fs1 & n & _ & Hw).
    cbn [wr_mode wr_path wr_content] in *. injection Hb as -> -> ->.
    rewrite (str_eqb_neq _ _ Hm) in Hw.
    apply write_text_stored in Hw as (_ & bs & He & Hs).
    repeat split. intros data Hd. destruct Hs as [Hs|Hs]; congruence.
Qed.

Lemma unknown_mode_is_write_witness :
  serve Demo.env Demo.TOKEN solid Demo.bearer
        (POST_fs_write (mkWriteRequest (lit "/tmp/t.txt") (lit "x") (lit "banana")))
        Demo.tree
  = (OK (Written [lit "tmp"; lit "t.txt"] 1 (lit "banana")),
     snd (serve Demo.env Demo.TOKEN solid Demo.bearer
                (POST_fs_write (mkWriteRequest (lit "/tmp/t.txt") (lit "x") (lit "write")))
                Demo.tree)).
Proof.
  assert (Hm : lit "banana" <> lit "append") by (intros H; vm_compute in H; discriminate).
  destruct (unknown_mode_is_write Demo.env Demo.TOKEN solid Demo.bearer
              (lit "/tmp/t.txt") (lit "x") (lit "banana") Demo.tree Hm) as [E _].
  rewrite E. reflexivity.
Defined.

(* ====================================================================== *)
(** * Listing a directory *)
(* ====================================================================== *)

Section Listing.

Variable env : Env.

Lemma walk_None p : walk p None = inl FileNotFoundError.
Proof. destruct p; reflexivity. Qed.

Lemma walk_app p q : forall o,
  walk (p ++ q) o
  = match walk p o with
    | inr t => walk q (Some t)
    | inl e => inl e
    end.
Proof.
  induction p as [|n p IH]; intros o; simpl.
  - destruct o as [[data|es| | |]|]; try reflexivity; destruct q; reflexivity.
  - destruct o as [[data|es| | |]|]; auto.
Qed.

Lemma lookup_entry_In n es :
  In n (map fst es) -> exists c, lookup_entry n es = Some c.
Proof.
  induction es as [|[m c] es IH]; simpl; [contradiction|].
  intros [->|H].
  - rewrite str_eqb_refl. eauto.
  - destruct (str_eqb m n); eauto.
Qed.

Lemma walk_entry target n fs es c :
  walk target (Some fs) = inr (Dir es) ->
  lookup_entry n es = Some c ->
  walk (target ++ [n]) (Some fs) = walk [] (Some c).
Proof. intros Ht Hl. rewrite walk_app, Ht. simpl. now rewrite Hl. Qed.

(** One turn of the loop: the entry is described, or marked when it may
    not be examined; the loop goes on either way. *)
Lemma ls_entry_run target n fs es c e :
  walk target (Some fs) = inr (Dir es) ->
  lookup_entry n es = Some c ->
  listed n c = Some e ->
  ls_entry env target n fs = (Return e, fs).
Proof.
  intros Ht Hl He.
  pose proof (walk_entry _ _ _ _ _ Ht Hl) as Hw.
  unfold ls_entry, try_except.
  destruct c; simpl in Hw, He; try discriminate; injection He as <-;
    try (rewrite (bind_return _ _ _ _ _
                    (os_stat_found _ _ _ Hw ltac:(discriminate)));
         unfold is_dir, is_file;
         rewrite (bind_return _ _ _ _ _
                    (stat_test_found env _ _ _ _ Hw ltac:(discriminate)));
         rewrite (bind_return _ _ _ _ _
                    (stat_test_found env _ _ _ _ Hw ltac:(discriminate)));
         reflexivity).
  unfold bind, os_stat. rewrite Hw. reflexivity.
Qed.

(** One turn of the loop on a dangling link: [stat] raises
    [FileNotFoundError], which the loop does not handle. *)
Lemma ls_entry_dangling target n fs es :
  walk target (Some fs) = inr (Dir es) ->
  lookup_entry n es = Some Dangling ->
  ls_entry env target n fs = (Raise FileNotFoundError, fs).
Proof.
  intros Ht Hl.
  pose proof (walk_entry _ _ _ _ _ Ht Hl) as Hw. simpl in Hw.
  unfold ls_entry, try_except, bind, os_stat. rewrite Hw. reflexivity.
Qed.




Lemma sorted_Permutation l : Permutation l (sorted l).
Proof. apply StrSort.Permuted_sort. Qed.

End Listing.



(* ====================================================================== *)
(** * Running commands *)
(* ====================================================================== *)

Section Exec.

Variable env : Env.
Variable TOKEN : str.
Variable ACCESS : Level.t.

Lemma exec_command_run req fs :
  Level.exec ACCESS = true ->
  exec_command env TOKEN ACCESS req (Some (lit "Bearer " ++ TOKEN)) fs
  = match subprocess_run env (cmd req) (cwd req) (timeout req) fs with
    | (Return result, fs') =>
        (Return (ExecResult (cmd req) (cwd req) (stdout result) (stderr result)
                            (returncode result)), fs')
    | (Raise TimeoutExpired, fs') =>
        (Raise (HTTPException 408
                  (lit "Command timed out after " ++ str_of_int (timeout req) ++ lit "s")),
         fs')
    | (Raise FileNotFoundError, fs') =>
        match cmd req with
        | [] => (Raise IndexError, fs')
        | c :: _ => (Raise (HTTPException 400 (lit "Command not found: " ++ c)), fs')
        end
    | (Raise e, fs') => (Raise e, fs')
    end.
Proof.
  intros He. unfold exec_command.
  rewrite (bind_return _ _ _ _ _ (require_auth_ok TOKEN fs)), He.
  cbn [negb raise_if]. unfold bind at 1. cbn [ret].
  unfold try_except, bind at 1.
  destruct (subprocess_run env (cmd req) (cwd req) (timeout req) fs)
    as [[result|e] fs']; [reflexivity|].
  destruct e; try reflexivity.
  unfold bind, cmd0. destruct (cmd req); reflexivity.
Qed.

(** [subprocess.run] once the working directory is there and the program
    has started. *)
Lemma subprocess_run_spawned argv dir seconds fs es c :
  argv <> [] ->
  walk (os_path env dir) (Some fs) = inr (Dir es) ->
  execvp env argv (os_path env dir) fs = Spawned c ->
  subprocess_run env argv dir seconds fs
  = if 2147484 <=? seconds then (Raise OverflowError_, child_fs_kill c 0)
    else if seconds <=? 0 then (Raise TimeoutExpired, child_fs_kill c 0)
    else
      match child_runtime c with
      | Some d =>
          if d <? seconds then
            match Codec.decode (child_stdout c), Codec.decode (child_stderr c) with
            | Some out, Some err =>
                (Return {| stdout := Codec.universal_newlines out;
                           stderr := Codec.universal_newlines err;
                           returncode := child_returncode c |}, child_fs_exit c)
            | _, _ => (Raise UnicodeDecodeError, child_fs_exit c)
            end
          else (Raise TimeoutExpired, child_fs_kill c seconds)
      | None => (Raise TimeoutExpired, child_fs_kill c seconds)
      end.
Proof.
  intros Ha Hw Hs. unfold subprocess_run.
  destruct argv as [|a argv]; [congruence|].
  unfold bind at 1, get. rewrite Hw, Hs.
  destruct (2147484 <=? seconds); [reflexivity|].
  destruct (seconds <=? 0); [reflexivity|].
  destruct (child_runtime c) as [d|]; [|reflexivity].
  destruct (d <? seconds); [|reflexivity].
  unfold bind, put.
  destruct (Codec.decode (child_stdout c)), (Codec.decode (child_stderr c));
    reflexivity.
Qed.

(** A started command whose captured output is not text: the decoding
    error is not handled, whatever the exit code. *)
Lemma exec_undecodable_output req fs es c d :
  Level.exec ACCESS = true ->
  cmd req <> [] ->
  walk (os_path env (cwd req)) (Some fs) = inr (Dir es) ->
  execvp env (cmd req) (os_path env (cwd req)) fs = Spawned c ->
  0 < timeout req < 2147484 ->
  child_runtime c = Some d -> d < timeout req ->
  Codec.decode (child_stdout c) = None \/ Codec.decode (child_stderr c) = None ->
  serve env TOKEN ACCESS (Some (lit "Bearer " ++ TOKEN)) (POST_exec req) fs
  = (InternalServerError UnicodeDecodeError, child_fs_exit c).
Proof.
  intros He Hc Hw Hs [Hlo Hhi] Hd Hlt Hn. unfold serve, respond. cbn [handle].
  rewrite (exec_command_run _ _ He).
  rewrite (subprocess_run_spawned _ _ _ _ _ _ Hc Hw Hs), Hd.
  apply Z.leb_gt in Hhi, Hlo. apply Z.ltb_lt in Hlt. rewrite Hhi, Hlo, Hlt.
  destruct Hn as [-> | Hn]; [reflexivity|].
  rewrite Hn. now destruct (Codec.decode (child_stdout c)).
Qed.

(** A timeout of 2147484 seconds or more: the overflow is not handled,
    whatever the command does. *)
Lemma exec_timeout_overflow req fs es c :
  Level.exec ACCESS = true ->
  cmd req <> [] ->
  walk (os_path env (cwd req)) (Some fs) = inr (Dir es) ->
  execvp env (cmd req) (os_path env (cwd req)) fs = Spawned c ->
  2147484 <= timeout req ->
  serve env TOKEN ACCESS (Some (lit "Bearer " ++ TOKEN)) (POST_exec req) fs
  = (InternalServerError OverflowError_, child_fs_kill c 0).
Proof.
  intros He Hc Hw Hs Hhi. unfold serve, respond. cbn [handle].
  rewrite (exec_command_run _ _ He).
  rewrite (subprocess_run_spawned _ _ _ _ _ _ Hc Hw Hs).
  apply Z.leb_le in Hhi. now rewrite Hhi.
Qed.

(** A program name that does not resolve is answered 400. *)
Lemma exec_unresolvable req fs es prog args :
  Level.exec ACCESS = true ->
  cmd req = prog :: args ->
  walk (os_path env (cwd req)) (Some fs) = inr (Dir es) ->
  execvp env (cmd req) (os_path env (cwd req)) fs = SpawnError FileNotFoundError ->
  serve env TOKEN ACCESS (Some (lit "Bearer " ++ TOKEN)) (POST_exec req) fs
  = (Error 400 (lit "Command not found: " ++ prog), fs).
Proof.
  intros He Hc Hw Hs. unfold serve, respond. cbn [handle].
  rewrite (exec_command_run _ _ He). unfold subprocess_run.
  rewrite Hc in *. unfold bind, get. now rewrite Hw, Hs.
Qed.

(** So is a working directory that does not exist, whatever the program. *)
Lemma exec_missing_cwd req fs prog args :
  Level.exec ACCESS = true ->
  cmd req = prog :: args ->
  walk (os_path env (cwd req)) (Some fs) = inl FileNotFoundError ->
  serve env TOKEN ACCESS (Some (lit "Bearer " ++ TOKEN)) (POST_exec req) fs
  = (Error 400 (lit "Command not found: " ++ prog), fs).
Proof.
  intros He Hc Hw. unfold serve, respond. cbn [handle].
  rewrite (exec_command_run _ _ He). unfold subprocess_run.
  rewrite Hc in *. unfold bind, get. now rewrite Hw.
Qed.

End Exec.

(** C7. The failing inputs: under [full], [false] exits 1 and is answered
    200 with exit code 1; [dump] exits 1 as well, but prints an octet that
    is not text, and is answered 500, not 200 with its exit code; [yes]
    never exits, and with a timeout of 2147484 seconds is answered 500 at
    once, not 408. *)
Theorem exec_uncaught_failures :
  serve Demo.env Demo.TOKEN full Demo.bearer
        (POST_exec (mkExecRequest [lit "false"] (lit "/tmp") 60)) Demo.tree
  = (OK (ExecResult [lit "false"] (lit "/tmp") [] [] 1), Demo.tree) /\
  serve Demo.env Demo.TOKEN full Demo.bearer
        (POST_exec (mkExecRequest [lit "dump"] (lit "/tmp") 60)) Demo.tree
  = (InternalServerError UnicodeDecodeError, Demo.tree) /\
  serve Demo.env Demo.TOKEN full Demo.bearer
        (POST_exec (mkExecRequest [lit "yes"] (lit "/tmp") 5)) Demo.tree
  = (Error 408 (lit "Command timed out after 5s"), Demo.tree) /\
  serve Demo.env Demo.TOKEN full Demo.bearer
        (POST_exec (mkExecRequest [lit "yes"] (lit "/tmp") 2147484)) Demo.tree
  = (InternalServerError OverflowError_, Demo.tree).
Proof.
  split; [reflexivity | split; [|split; [reflexivity|]]].
  - apply (exec_undecodable_output Demo.env Demo.TOKEN full
             (mkExecRequest [lit "dump"] (lit "/tmp") 60) Demo.tree _ _ 0
             eq_refl ltac:(discriminate) eq_refl eq_refl);
      [cbn; lia | reflexivity | cbn; lia | left; reflexivity].
  - apply (exec_timeout_overflow Demo.env Demo.TOKEN full
             (mkExecRequest [lit "yes"] (lit "/tmp") 2147484) Demo.tree _ _
             eq_refl ltac:(discriminate) eq_refl eq_refl).
    cbn. lia.
Qed.

(** C8. The failing input: under [full], [ls] resolves and runs in /tmp,
    yet with a working directory that does not exist the same command is
    answered 400 [Command not found: ls]. *)
Theorem missing_cwd_is_command_not_found :
  serve Demo.env Demo.TOKEN full Demo.bearer
        (POST_exec (mkExecRequest [lit "ls"] (lit "/tmp") 60)) Demo.tree
  = (OK (ExecResult [lit "ls"] (lit "/tmp") (lit "t" ++ [10]) [] 0), Demo.tree) /\
  serve Demo.env Demo.TOKEN full Demo.bearer
        (POST_exec (mkExecRequest [lit "ls"] (lit "/no/such/dir") 60)) Demo.tree
  = (Error 400 (lit "Command not found: ls"), Demo.tree).
Proof.
  split.
  - reflexivity.
  - apply (exec_missing_cwd Demo.env Demo.TOKEN full
             (mkExecRequest [lit "ls"] (lit "/no/such/dir") 60) Demo.tree
             (lit "ls") []); reflexivity.
Qed.

(* ====================================================================== *)
(** * The scenarios of the specification, run *)
(* ====================================================================== *)

Example health_limited :
  health limited Demo.tree
  = (Return (Health (lit "ok") (lit "1.0.0") (lit "limited") true false false false),
     Demo.tree).
Proof. reflexivity. Qed.

Example limited_write_forbidden :
  serve Demo.env Demo.TOKEN limited Demo.bearer
        (POST_fs_write (mkWriteRequest (lit "/tmp/t.txt") (lit "hi") (lit "write")))
        Demo.tree
  = (Error 403 (lit "Write access disabled. Start with --solid or --full"), Demo.tree).
Proof. reflexivity. Qed.

Example full_write_two_characters :
  fst (serve Demo.env Demo.TOKEN full Demo.bearer
             (POST_fs_write (mkWriteRequest (lit "/tmp/t.txt") (lit "hi") (lit "write")))
             Demo.tree)
  = OK (Written [lit "tmp"; lit "t.txt"] 2 (lit "write")).
Proof. reflexivity. Qed.

Example append_after_write :
  let append := POST_fs_write (mkWriteRequest (lit "/tmp/t.txt") (lit "!") (lit "append")) in
  let fs' := snd (serve Demo.env Demo.TOKEN solid Demo.bearer append Demo.tree) in
  serve Demo.env Demo.TOKEN solid Demo.bearer (GET_fs_read (lit "/tmp/t.txt")) fs'
  = (OK (ReadText [lit "tmp"; lit "t.txt"] (lit "hi!") 3), fs').
Proof. reflexivity. Qed.

Example uppercase_append_truncates :
  let request := POST_fs_write (mkWriteRequest (lit "/tmp/t.txt") (lit "!") (lit "APPEND")) in
  let fs' := snd (serve Demo.env Demo.TOKEN solid Demo.bearer request Demo.tree) in
  serve Demo.env Demo.TOKEN solid Demo.bearer (GET_fs_read (lit "/tmp/t.txt")) fs'
  = (OK (ReadText [lit "tmp"; lit "t.txt"] (lit "!") 1), fs').
Proof. reflexivity. Qed.

Example read_after_delete_not_found :
  let fs' := snd (serve Demo.env Demo.TOKEN full Demo.bearer
                        (POST_fs_rm (mkRmRequest (lit "/tmp"))) Demo.tree) in
  serve Demo.env Demo.TOKEN full Demo.bearer (GET_fs_read (lit "/tmp/t.txt")) fs'
  = (Error 404 (lit "File not found: /tmp/t.txt"), fs').
Proof. reflexivity. Qed.

Example write_to_device_then_read :
  let request := POST_fs_write (mkWriteRequest (lit "/dev/null") (lit "hi") (lit "write")) in
  serve Demo.env Demo.TOKEN solid Demo.bearer request Demo.tree
  = (OK (Written [lit "dev"; lit "null"] 2 (lit "write")), Demo.tree) /\
  serve Demo.env Demo.TOKEN solid Demo.bearer (GET_fs_read (lit "/dev/null")) Demo.tree
  = (Error 400 (lit "Not a file: /dev/null"), Demo.tree).
Proof. split; reflexivity. Qed.

Example unknown_program :
  serve Demo.env Demo.TOKEN full Demo.bearer
        (POST_exec (mkExecRequest [lit "nope"] (lit "/tmp") 60)) Demo.tree
  = (Error 400 (lit "Command not found: nope"), Demo.tree).
Proof. reflexivity. Qed.

(* ====================================================================== *)
(** * More on the directory tree *)
(* ====================================================================== *)

Lemma lookup_put_other a b o es :
  str_eqb a b = false -> lookup_entry b (put_entry a o es) = lookup_entry b es.
Proof.
  intros Hab. induction es as [|[m c0] es IH]; simpl.
  - destruct o; simpl; [now rewrite Hab | reflexivity].
  - destruct (str_eqb m a) eqn:Ema.
    + apply str_eqb_eq in Ema. subst m. rewrite Hab.
      destruct o; simpl; [now rewrite Hab | exact IH].
    + simpl. destruct (str_eqb m b); [reflexivity | exact IH].
Qed.

(** [alter] at a path leaves alone what a path that parts ways with it
    leads to. *)
Lemma walk_alter_diverge f : forall p q o o',
  diverge p q = true -> alter p f o = inr o' -> walk q o' = walk q o.
Proof.
  induction p as [|a p IH]; intros q o o' Hd Ha; [discriminate|].
  destruct q as [|b q]; [discriminate|]. simpl in *.
  destruct o as [[data|es| | |]|]; try discriminate.
  destruct (alter p f (lookup_entry a es)) as [e|r] eqn:E; [discriminate|].
  injection Ha as <-. simpl.
  destruct (str_eqb a b) eqn:Eab.
  - apply str_eqb_eq in Eab. subst b. rewrite lookup_put. now apply IH.
  - now rewrite lookup_put_other.
Qed.


(** What is found at a path of at least one component is an entry of the
    directory found at its parent. *)
Lemma walk_last q n fs c :
  walk (q ++ [n]) (Some fs) = inr c ->
  exists es, walk q (Some fs) = inr (Dir es) /\ lookup_entry n es = Some c.
Proof.
  rewrite walk_app. destruct (walk q (Some fs)) as [e|t]; [discriminate|].
  simpl. destruct t as [data|es| | |]; try discriminate.
  destruct (lookup_entry n es) as [c'|] eqn:El; [|discriminate].
  intros H. exists es. split; [reflexivity|]. destruct c'; congruence.
Qed.

Lemma walk_parent p fs c :
  p <> [] -> walk p (Some fs) = inr c ->
  exists es, walk (parent p) (Some fs) = inr (Dir es).
Proof.
  intros Hp Hw. unfold parent.
  rewrite (app_removelast_last [] Hp) in Hw.
  apply walk_last in Hw as (es & Hq & _). eauto.
Qed.

(* ====================================================================== *)
(** * Computations that only look *)
(* ====================================================================== *)

Section Readonly.

Variable env : Env.

Lemma readonly_ret {A} (a : A) : readonly (ret a).
Proof. intros fs r fs'. unfold ret. now intros [= _ <-]. Qed.

Lemma readonly_raise {A} e : readonly (@raise A e).
Proof. intros fs r fs'. unfold raise. now intros [= _ <-]. Qed.

Lemma readonly_raise_if c e : readonly (raise_if c e).
Proof. destruct c; [apply readonly_raise | apply readonly_ret]. Qed.

Lemma readonly_bind {A B} (m : M A) (k : A -> M B) :
  readonly m -> (forall a, readonly (k a)) -> readonly (bind m k).
Proof.
  intros Hm Hk fs r fs'. unfold bind.
  destruct (m fs) as [[a|e] fs1] eqn:E; pose proof (Hm _ _ _ E); subst fs1.
  - apply Hk.
  - now intros [= _ <-].
Qed.

Lemma readonly_try_except {A} (m : M A) h :
  readonly m -> (forall e, readonly (h e)) -> readonly (try_except m h).
Proof.
  intros Hm Hh fs r fs'. unfold try_except.
  destruct (m fs) as [[a|e] fs1] eqn:E; pose proof (Hm _ _ _ E); subst fs1.
  - now intros [= _ <-].
  - apply Hh.
Qed.

Lemma readonly_os_stat p : readonly (os_stat p).
Proof.
  intros fs r fs'. unfold os_stat.
  destruct (walk p (Some fs)) as [e|[]]; now intros [= _ <-].
Qed.

Lemma readonly_stat_test test p : readonly (stat_test env test p).
Proof. intros fs r fs'. apply stat_test_state. Qed.

Lemma readonly_read_text p : readonly (read_text p).
Proof.
  intros fs r fs'. unfold read_text.
  destruct (walk p (Some fs)) as [e|[data|es| | |]]; try (now intros [= _ <-]).
  destruct (Codec.decode data); now intros [= _ <-].
Qed.

Lemma readonly_iterdir p : readonly (iterdir p).
Proof.
  intros fs r fs'. unfold iterdir.
  destruct (walk p (Some fs)) as [e|[]]; now intros [= _ <-].
Qed.

Lemma readonly_for_each {A B} (f : A -> M B) l :
  (forall a, readonly (f a)) -> readonly (for_each f l).
Proof.
  intros Hf. induction l as [|a l IH]; simpl; [apply readonly_ret|].
  apply readonly_bind; [apply Hf|]. intros b.
  apply readonly_bind; [exact IH|]. intros bs. apply readonly_ret.
Qed.

Variable TOKEN : str.
Variable ACCESS : Level.t.

Lemma readonly_require_auth authorization : readonly (require_auth TOKEN authorization).
Proof.
  intros fs r fs' H.
  destruct (require_auth_cases TOKEN authorization fs) as [E|[E|[_ E]]];
    rewrite E in H; now injection H as _ <-.
Qed.

Lemma readonly_ls_entry target n : readonly (ls_entry env target n).
Proof.
  unfold ls_entry. apply readonly_try_except.
  - apply readonly_bind; [apply readonly_os_stat|]. intros st.
    apply readonly_bind; [apply readonly_stat_test|]. intros d.
    apply readonly_bind; [apply readonly_stat_test|]. intros f.
    apply readonly_ret.
  - intros []; first [apply readonly_ret | apply readonly_raise].
Qed.

Lemma readonly_fs_ls P authorization : readonly (fs_ls env TOKEN ACCESS P authorization).
Proof.
  unfold fs_ls.
  apply readonly_bind; [apply readonly_require_auth|]. intros _.
  apply readonly_bind; [apply readonly_raise_if|]. intros _.
  apply readonly_bind; [apply readonly_stat_test|]. intros e.
  apply readonly_bind; [apply readonly_raise_if|]. intros _.
  apply readonly_bind; [apply readonly_stat_test|]. intros d.
  destruct d; cbn [negb].
  - apply readonly_bind; [apply readonly_iterdir|]. intros items.
    apply readonly_bind; [apply readonly_for_each, readonly_ls_entry|].
    intros entries. apply readonly_ret.
  - apply readonly_bind; [apply readonly_os_stat|]. intros st. apply readonly_ret.
Qed.

Lemma readonly_fs_read P authorization :
  readonly (fs_read env TOKEN ACCESS P authorization).
Proof.
  unfold fs_read.
  apply readonly_bind; [apply readonly_require_auth|]. intros _.
  apply readonly_bind; [apply readonly_raise_if|]. intros _.
  apply readonly_bind; [apply readonly_stat_test|]. intros e.
  apply readonly_bind; [apply readonly_raise_if|]. intros _.
  apply readonly_bind; [apply readonly_stat_test|]. intros f.
  apply readonly_bind; [apply readonly_raise_if|]. intros _.
  apply readonly_try_except.
  - apply readonly_bind; [apply readonly_read_text|]. intros c. apply readonly_ret.
  - intros []; try apply readonly_raise.
    apply readonly_bind; [apply readonly_os_stat|]. intros st. apply readonly_ret.
Qed.

Lemma readonly_chat_completions req authorization :
  readonly (chat_completions env TOKEN req authorization).
Proof.
  unfold chat_completions.
  apply readonly_bind; [apply readonly_require_auth|]. intros _.
  destruct (ollama env); apply readonly_ret.
Qed.

Lemma readonly_respond (m : M Body) fs :
  readonly m -> snd (respond m fs) = fs.
Proof.
  intros Hm. unfold respond.
  destruct (m fs) as [[b|e] fs1] eqn:E; pose proof (Hm _ _ _ E); subst fs1;
    [reflexivity | destruct e; reflexivity].
Qed.

End Readonly.

(* ====================================================================== *)
(** * What the routes leave alone *)
(* ====================================================================== *)

(** X1. Listing and reading never change the tree, whatever the header,
    the level, the path and the answer are. *)
Theorem read_routes_change_nothing :
  forall env TOKEN ACCESS authorization P fs,
    snd (serve env TOKEN ACCESS authorization (GET_fs_ls P) fs) = fs /\
    snd (serve env TOKEN ACCESS authorization (GET_fs_read P) fs) = fs.
Proof.
  intros. unfold serve. cbn [handle]. split; apply readonly_respond.
  - apply readonly_fs_ls.
  - apply readonly_fs_read.
Qed.

(** X2. Under a level that grants neither writing, deleting nor executing
    (the level [limited]), no request on any route behind [require_auth]
    changes the tree. *)
Theorem no_write_level_changes_nothing :
  forall env TOKEN ACCESS authorization r fs,
    Level.fs_write ACCESS = false ->
    Level.fs_delete ACCESS = false ->
    Level.exec ACCESS = false ->
    snd (serve env TOKEN ACCESS authorization r fs) = fs.
Proof.
  intros env TOKEN ACCESS authorization r fs Hw Hd He.
  assert (Hoff : forall c, required_capability r = Some c -> c <> CanRead ->
                           snd (serve env TOKEN ACCESS authorization r fs) = fs).
  { intros c Hr Hc. unfold serve, respond.
    destruct (require_auth_cases TOKEN authorization fs) as [E|[E|[-> _]]].
    - now rewrite (handle_auth_raise env TOKEN ACCESS _ r _ _ E).
    - now rewrite (handle_auth_raise env TOKEN ACCESS _ r _ _ E).
    - rewrite (handle_capability_off env TOKEN ACCESS r c fs Hr); [reflexivity|].
      destruct c; cbn [grants]; congruence. }
  destruct r.
  - unfold serve. cbn [handle]. apply readonly_respond, readonly_fs_ls.
  - unfold serve. cbn [handle]. apply readonly_respond, readonly_fs_read.
  - apply (Hoff CanWrite); [reflexivity | discriminate].
  - apply (Hoff CanWrite); [reflexivity | discriminate].
  - apply (Hoff CanDelete); [reflexivity | discriminate].
  - apply (Hoff CanExecute); [reflexivity | discriminate].
  - unfold serve. cbn [handle]. apply readonly_respond, readonly_chat_completions.
Qed.

Lemma no_write_level_changes_nothing_witness :
  snd (serve Demo.env Demo.TOKEN limited Demo.bearer
             (POST_fs_rm (mkRmRequest (lit "/tmp"))) Demo.tree) = Demo.tree.
Proof.
  apply (no_write_level_changes_nothing Demo.env Demo.TOKEN limited); reflexivity.
Defined.

Section NotFound.

Variable env : Env.
Variable TOKEN : str.
Variable ACCESS : Level.t.

Lemma exists_missing p fs :
  walk p (Some fs) = inl FileNotFoundError ->
  exists_ env p fs = (Return false, fs).
Proof.
  intros Hw. unfold exists_, stat_test, try_except, bind, os_stat.
  now rewrite Hw.
Qed.

Lemma fs_read_missing P fs :
  Level.fs_read ACCESS = true ->
  walk (resolve env P) (Some fs) = inl FileNotFoundError ->
  serve env TOKEN ACCESS (Some (lit "Bearer " ++ TOKEN)) (GET_fs_read P) fs
  = (Error 404 (lit "File not found: " ++ P), fs).
Proof.
  intros Hr Hw. unfold serve, respond. cbn [handle]. unfold fs_read.
  rewrite (bind_return _ _ _ _ _ (require_auth_ok TOKEN fs)), Hr.
  cbn [negb raise_if]. unfold bind at 1. cbn [ret].
  now rewrite (bind_return _ _ _ _ _ (exists_missing _ _ Hw)).
Qed.

Lemma fs_ls_missing P fs :
  Level.fs_read ACCESS = true ->
  walk (resolve env P) (Some fs) = inl FileNotFoundError ->
  serve env TOKEN ACCESS (Some (lit "Bearer " ++ TOKEN)) (GET_fs_ls P) fs
  = (Error 404 (lit "Path not found: " ++ P), fs).
Proof.
  intros Hr Hw. unfold serve, respond. cbn [handle]. unfold fs_ls.
  rewrite (bind_return _ _ _ _ _ (require_auth_ok TOKEN fs)), Hr.
  cbn [negb raise_if]. unfold bind at 1. cbn [ret].
  now rewrite (bind_return _ _ _ _ _ (exists_missing _ _ Hw)).
Qed.

Lemma fs_rm_missing P fs :
  Level.fs_delete ACCESS = true ->
  walk (resolve env P) (Some fs) = inl FileNotFoundError ->
  serve env TOKEN ACCESS (Some (lit "Bearer " ++ TOKEN))
        (POST_fs_rm (mkRmRequest P)) fs
  = (Error 404 (lit "Path not found: " ++ P), fs).
Proof.
  intros Hr Hw. unfold serve, respond. cbn [handle]. unfold fs_rm.
  rewrite (bind_return _ _ _ _ _ (require_auth_ok TOKEN fs)), Hr.
  cbn [negb raise_if rm_path]. unfold bind at 1. cbn [ret].
  now rewrite (bind_return _ _ _ _ _ (exists_missing _ _ Hw)).
Qed.

(** A delete request that is answered 200 has passed authentication and
    the capability test and has removed the target in one [update]. *)
Lemma fs_rm_inv req authorization fs b fs' :
  fs_rm env TOKEN ACCESS req authorization fs = (Return b, fs') ->
  authorization = Some (lit "Bearer " ++ TOKEN) /\
  Level.fs_delete ACCESS = true /\
  b = Removed (resolve env (rm_path req)) true /\
  exists f, update (resolve env (rm_path req)) f fs = (Return tt, fs') /\
            forall o r, f o = inr r -> r = None.
Proof.
  unfold fs_rm. intros H.
  apply bind_inv in H as (tok & fs0 & Ha & H).
  destruct (require_auth_cases TOKEN authorization fs) as [E|[E|[E _]]];
    try congruence.
  assert (fs0 = fs) by (subst authorization; rewrite require_auth_ok in Ha; congruence).
  subst fs0.
  apply bind_inv in H as ([] & fs0 & Hc & H).
  apply raise_if_inv in Hc as [Hc ->]. apply negb_false_iff in Hc.
  apply bind_inv in H as (e & fs0 & He & H).
  pose proof (stat_test_state _ _ _ _ _ _ He). subst fs0.
  apply bind_inv in H as ([] & fs0 & Hn & H).
  apply raise_if_inv in Hn as [_ ->].
  apply bind_inv in H as (d & fs1 & Hd & H).
  pose proof (stat_test_state _ _ _ _ _ _ Hd). subst fs1.
  apply bind_inv in H as ([] & fs2 & Hrm & H).
  injection H as <- <-.
  repeat split; auto.
  destruct d.
  - unfold rmtree in Hrm. apply bind_inv in Hrm as (n & fs3 & Hn & Hrm).
    pose proof (readonly_os_stat _ _ _ _ Hn). subst fs3.
    destruct (rm_node n) as [[n' e']|].
    + apply bind_inv in Hrm as ([] & fs4 & _ & Hrm). discriminate.
    + eexists. split; [exact Hrm|]. now intros o r [= <-].
  - eexists. split; [exact Hrm|].
    intros [[]|] r; simpl; congruence.
Qed.

End NotFound.

(** X3. A path that does not exist is answered 404 by list, read and
    delete (each under a level that grants it, with the correct
    credential), and the tree is left as it was. *)
Theorem missing_path_not_found :
  forall env TOKEN ACCESS P fs,
    walk (resolve env P) (Some fs) = inl FileNotFoundError ->
    let authorization := Some (lit "Bearer " ++ TOKEN) in
    (Level.fs_read ACCESS = true ->
     serve env TOKEN ACCESS authorization (GET_fs_ls P) fs
     = (Error 404 (lit "Path not found: " ++ P), fs) /\
     serve env TOKEN ACCESS authorization (GET_fs_read P) fs
     = (Error 404 (lit "File not found: " ++ P), fs)) /\
    (Level.fs_delete ACCESS = true ->
     serve env TOKEN ACCESS authorization (POST_fs_rm (mkRmRequest P)) fs
     = (Error 404 (lit "Path not found: " ++ P), fs)).
Proof.
  intros env TOKEN ACCESS P fs Hw authorization. split.
  - intros Hr. split.
    + now apply fs_ls_missing.
    + now apply fs_read_missing.
  - intros Hd. now apply fs_rm_missing.
Qed.

Lemma missing_path_not_found_witness :
  serve Demo.env Demo.TOKEN full Demo.bearer
        (POST_fs_rm (mkRmRequest (lit "/tmp/none"))) Demo.tree
  = (Error 404 (lit "Path not found: /tmp/none"), Demo.tree).
Proof.
  apply (missing_path_not_found Demo.env Demo.TOKEN full (lit "/tmp/none")
           Demo.tree eq_refl). reflexivity.
Defined.



(** X5. A delete request that is answered 200 leaves alone whatever any
    path that parts ways with the target leads to: only the target, what
    is below it and the directories above it are touched. *)
Theorem delete_only_the_target :
  forall env TOKEN ACCESS authorization P fs b fs' q,
    serve env TOKEN ACCESS authorization (POST_fs_rm (mkRmRequest P)) fs
    = (OK b, fs') ->
    diverge (resolve env P) q = true ->
    walk q (Some fs') = walk q (Some fs).
Proof.
  intros env TOKEN ACCESS authorization P fs b fs' q H Hd.
  apply respond_inv in H. cbn [handle] in H.
  apply fs_rm_inv in H as (_ & _ & _ & f & Hu & _). cbn [rm_path] in *.
  exact (walk_alter_diverge f _ _ _ _ Hd (update_inv _ _ _ _ Hu)).
Qed.

Lemma delete_only_the_target_witness :
  walk [lit "srv"; lit "notes"]
       (Some (snd (serve Demo.env Demo.TOKEN full Demo.bearer
                         (POST_fs_rm (mkRmRequest (lit "/tmp/t.txt"))) Demo.tree)))
  = inr (File [111; 107; 10]).
Proof.
  transitivity (walk [lit "srv"; lit "notes"] (Some Demo.tree)); [|reflexivity].
  apply (delete_only_the_target Demo.env Demo.TOKEN full Demo.bearer
           (lit "/tmp/t.txt") Demo.tree (Removed [lit "tmp"; lit "t.txt"] true));
    reflexivity.
Defined.

(* ====================================================================== *)
(** * Writes that succeed *)
(* ====================================================================== *)

(** [alter] on an entry of an existing directory, there or not, succeeds
    when [f] returns a node, and the node is then found. *)
Lemma alter_entry_ok f n c : c <> Dangling -> forall q o es,
  walk q o = inr (Dir es) -> f (lookup_entry n es) = inr (Some c) ->
  exists t, alter (q ++ [n]) f o = inr (Some t) /\ walk (q ++ [n]) (Some t) = inr c.
Proof.
  intros Hc.
  induction q as [|m q IH]; intros o es Hw Hf; simpl in *.
  - apply (peek_of_walk []) in Hw as [Hw _]. simpl in Hw. subst o.
    rewrite Hf. eexists. split; [reflexivity|]. simpl. rewrite lookup_put.
    destruct c; congruence.
  - destruct o as [[data|es0| | |]|]; try discriminate.
    destruct (IH _ _ Hw Hf) as (t & -> & Ht).
    eexists. split; [reflexivity|]. simpl. now rewrite lookup_put.
Qed.

(** Below a missing entry there is nothing to alter. *)
Lemma alter_missing f n1 r rs : forall q o es,
  walk q o = inr (Dir es) -> lookup_entry n1 es = None ->
  alter (q ++ n1 :: r :: rs) f o = inl FileNotFoundError.
Proof.
  induction q as [|m q IH]; intros o es Hw Hl; simpl in *.
  - apply (peek_of_walk []) in Hw as [Hw _]. simpl in Hw. subst o.
    now rewrite Hl.
  - destruct o as [[data|es0| | |]|]; try discriminate.
    now rewrite (IH _ _ Hw Hl).
Qed.

Lemma diverge_extend a x more p :
  diverge (a ++ [x]) p = true -> diverge (a ++ x :: more) p = true.
Proof.
  revert p. induction a as [|y a IH]; intros [|b p]; simpl; try discriminate.
  - destruct (str_eqb x b); [|reflexivity]. destruct p; discriminate.
  - destruct (str_eqb y b); [apply IH | reflexivity].
Qed.

Section WriteOk.

Variable env : Env.

Lemma update_entry_ok f q n es c fs :
  c <> Dangling ->
  walk q (Some fs) = inr (Dir es) -> f (lookup_entry n es) = inr (Some c) ->
  exists fs',
    update (q ++ [n]) f fs = (Return tt, fs') /\
    walk (q ++ [n]) (Some fs') = inr c /\
    (exists es', walk q (Some fs') = inr (Dir es') /\ lookup_entry n es' = Some c) /\
    (forall p, diverge (q ++ [n]) p = true -> walk p (Some fs') = walk p (Some fs)).
Proof.
  intros Hc Hw Hf.
  destruct (alter_entry_ok f n c Hc q (Some fs) es Hw Hf) as (t & Ha & Ht).
  exists t. unfold update. rewrite Ha. repeat split; auto.
  - now apply walk_last.
  - intros p Hp. exact (walk_alter_diverge f _ _ _ _ Hp Ha).
Qed.

(** Opening an entry of an existing directory that is a regular file, or
    is not there, and writing a text that encodes: the file then holds
    [keep ++ bs], where [keep] is what the opening left in it. *)
Lemma open_write_ok (open : option node -> Exn + option node) keep q n es C bs fs :
  walk q (Some fs) = inr (Dir es) ->
  open (lookup_entry n es) = inr (Some (File keep)) ->
  Codec.encode C = Some bs ->
  exists fs',
    bind (update (q ++ [n]) open) (fun _ => f_write (q ++ [n]) C) fs
    = (Return (List.length C), fs') /\
    walk (q ++ [n]) (Some fs') = inr (File (keep ++ bs)) /\
    (forall p, diverge (q ++ [n]) p = true -> walk p (Some fs') = walk p (Some fs)).
Proof.
  intros Hw Ho He.
  destruct (update_entry_ok open q n es (File keep) fs ltac:(discriminate) Hw Ho)
    as (fs1 & Hu1 & _ & (es1 & Hq1 & Hl1) & Hf1).
  assert (Hos : os_write bs (lookup_entry n es1) = inr (Some (File (keep ++ bs))))
    by now rewrite Hl1.
  destruct (update_entry_ok (os_write bs) q n es1 (File (keep ++ bs)) fs1
              ltac:(discriminate) Hq1 Hos)
    as (fs2 & Hu2 & Hw2 & _ & Hf2).
  exists fs2. repeat split; auto.
  - rewrite (bind_return _ _ _ _ _ Hu1). unfold f_write. rewrite He.
    now rewrite (bind_return _ _ _ _ _ Hu2).
  - intros p Hp. now rewrite (Hf2 p Hp), (Hf1 p Hp).
Qed.

Lemma parent_snoc (q : path) n : parent (q ++ [n]) = q.
Proof. apply removelast_last. Qed.

Lemma Path_mkdir_snoc_ok q m fs fs' :
  os_mkdir (q ++ [m]) fs = (Return tt, fs') ->
  Path_mkdir env (q ++ [m]) fs = (Return tt, fs').
Proof.
  intros H. unfold Path_mkdir. rewrite mkdir_from_eq, rev_involutive.
  unfold try_except. now rewrite H.
Qed.

Lemma Path_mkdir_snoc_retry q m fs fs0 fs1 fs2 :
  os_mkdir (q ++ [m]) fs = (Raise FileNotFoundError, fs0) ->
  Path_mkdir env q fs0 = (Return tt, fs1) ->
  os_mkdir (q ++ [m]) fs1 = (Return tt, fs2) ->
  Path_mkdir env (q ++ [m]) fs = (Return tt, fs2).
Proof.
  intros H0 H1 H2. unfold Path_mkdir in *.
  rewrite mkdir_from_eq, rev_involutive. rewrite rev_unit.
  unfold try_except at 1. rewrite H0.
  rewrite (bind_return _ _ _ _ _ H1). unfold try_except. now rewrite H2.
Qed.

(** [parents=True]: below an existing directory, every missing level of
    the path is made, each an empty directory, and nothing else moves. *)
Lemma Path_mkdir_missing q n1 es fs :
  walk q (Some fs) = inr (Dir es) -> lookup_entry n1 es = None ->
  forall rest, exists fs',
    Path_mkdir env (q ++ n1 :: rest) fs = (Return tt, fs') /\
    walk (q ++ n1 :: rest) (Some fs') = inr (Dir []) /\
    (forall p, diverge (q ++ [n1]) p = true -> walk p (Some fs') = walk p (Some fs)).
Proof.
  intros Hw Hl rest. induction rest as [|m rest IH] using rev_ind.
  - destruct (update_entry_ok
                (fun o => match o with
                          | Some _ => inl FileExistsError
                          | None => inr (Some (Dir []))
                          end) q n1 es (Dir []) fs ltac:(discriminate) Hw)
      as (fs' & Hu & Hw' & _ & Hf); [now rewrite Hl|].
    exists fs'. repeat split; auto. now apply Path_mkdir_snoc_ok.
  - destruct IH as (fs1 & Hm1 & Hw1 & Hf1).
    assert (E : q ++ n1 :: rest ++ [m] = (q ++ n1 :: rest) ++ [m])
      by now rewrite <- app_assoc.
    rewrite E.
    assert (H0 : os_mkdir ((q ++ n1 :: rest) ++ [m]) fs = (Raise FileNotFoundError, fs)).
    { rewrite <- E. unfold os_mkdir, update.
      destruct rest as [|r rest]; simpl app;
        now rewrite (alter_missing _ n1 _ _ q (Some fs) es Hw Hl). }
    destruct (update_entry_ok
                (fun o => match o with
                          | Some _ => inl FileExistsError
                          | None => inr (Some (Dir []))
                          end) (q ++ n1 :: rest) m [] (Dir []) fs1
                ltac:(discriminate) Hw1 eq_refl)
      as (fs2 & Hu & Hw2 & _ & Hf2).
    exists fs2. repeat split; auto.
    + exact (Path_mkdir_snoc_retry _ _ _ _ _ _ H0 Hm1 Hu).
    + intros p Hp. rewrite Hf2, Hf1; auto.
      rewrite <- E. now apply diverge_extend.
Qed.

Variable TOKEN : str.
Variable ACCESS : Level.t.

(** A write request, once past authentication and the capability test. *)
Lemma fs_write_steps req fs :
  Level.fs_write ACCESS = true ->
  fs_write env TOKEN ACCESS req (Some (lit "Bearer " ++ TOKEN)) fs
  = bind (Path_mkdir env (parent (resolve env (wr_path req)))) (fun _ =>
      bind (if str_eqb (wr_mode req) (lit "append")
            then append_text (resolve env (wr_path req)) (wr_content req)
            else write_text (resolve env (wr_path req)) (wr_content req)) (fun _ =>
        ret (Written (resolve env (wr_path req)) (List.length (wr_content req))
                     (wr_mode req)))) fs.
Proof.
  intros Hw. unfold fs_write.
  rewrite (bind_return _ _ _ _ _ (require_auth_ok TOKEN fs)), Hw.
  reflexivity.
Qed.

(** Listing a directory without entries. *)
Lemma fs_ls_empty P fs :
  Level.fs_read ACCESS = true ->
  walk (resolve env P) (Some fs) = inr (Dir []) ->
  serve env TOKEN ACCESS (Some (lit "Bearer " ++ TOKEN)) (GET_fs_ls P) fs
  = (OK (LsDir (resolve env P) []), fs).
Proof.
  intros Hr Hw. unfold serve, respond. cbn [handle]. unfold fs_ls.
  rewrite (bind_return _ _ _ _ _ (require_auth_ok TOKEN fs)), Hr.
  cbn [negb raise_if]. unfold bind at 1. cbn [ret].
  unfold exists_, is_dir.
  rewrite (bind_return _ _ _ _ _
             (stat_test_found env _ _ _ _ Hw ltac:(discriminate))).
  cbn [negb raise_if]. unfold bind at 1. cbn [ret].
  rewrite (bind_return _ _ _ _ _
             (stat_test_found env _ _ _ _ Hw ltac:(discriminate))).
  cbn [S_ISDIR negb]. unfold bind, iterdir. rewrite Hw. reflexivity.
Qed.

End WriteOk.

(** X6. Writing in any mode but [append], under a level that grants
    writing and with the correct credential, to a regular file or a
    missing entry of an existing directory, with a content that encodes:
    the request is answered 200, the file then holds the encoded content
    and nothing else, every path that parts ways with the target leads
    where it led, and reading the path gives the content back (after
    universal newlines). *)
Theorem write_stores_content :
  forall env TOKEN ACCESS P C mode fs q n es prev bs,
    Level.fs_write ACCESS = true ->
    mode <> lit "append" ->
    resolve env P = q ++ [n] ->
    walk q (Some fs) = inr (Dir es) ->
    lookup_entry n es = option_map File prev ->
    Codec.encode C = Some bs ->
    let authorization := Some (lit "Bearer " ++ TOKEN) in
    exists fs',
      serve env TOKEN ACCESS authorization
            (POST_fs_write (mkWriteRequest P C mode)) fs
      = (OK (Written (q ++ [n]) (List.length C) mode), fs') /\
      walk (q ++ [n]) (Some fs') = inr (File bs) /\
      (forall p, diverge (q ++ [n]) p = true -> walk p (Some fs') = walk p (Some fs)) /\
      (Level.fs_read ACCESS = true ->
       serve env TOKEN ACCESS authorization (GET_fs_read P) fs'
       = (OK (ReadText (q ++ [n]) (Codec.universal_newlines C)
                       (List.length (Codec.universal_newlines C))), fs')).
Proof.
  intros env TOKEN ACCESS P C mode fs q n es prev bs Hw Hm Hp Hq Hl He authorization.
  subst authorization.
  assert (Ho : open_w (lookup_entry n es) = inr (Some (File [])))
    by (rewrite Hl; destruct prev; reflexivity).
  destruct (open_write_ok open_w [] q n es C bs fs Hq Ho He) as (fs' & Hrun & Hf & Hfr).
  exists fs'. split; [|split; [exact Hf|split; [exact Hfr|]]].
  - unfold serve, respond. cbn [handle].
    rewrite (fs_write_steps env TOKEN ACCESS _ _ Hw).
    cbn [wr_path wr_content wr_mode]. rewrite Hp, parent_snoc.
    rewrite (bind_return _ _ _ _ _ (Path_mkdir_exists env _ _ _ Hq)).
    rewrite (str_eqb_neq _ _ Hm). unfold write_text.
    now rewrite (bind_return _ _ _ _ _ Hrun).
  - intros Hr. unfold serve, respond. cbn [handle].
    assert (Hf' : walk (resolve env P) (Some fs') = inr (File bs)) by now rewrite Hp.
    rewrite (fs_read_file env TOKEN ACCESS P fs' bs Hr Hf').
    now rewrite (CodecFacts.decode_encode _ _ He), Hp.
Qed.

Lemma write_stores_content_witness :
  exists fs',
    serve Demo.env Demo.TOKEN solid Demo.bearer
          (POST_fs_write (mkWriteRequest (lit "/tmp/t.txt") [233] (lit "w"))) Demo.tree
    = (OK (Written [lit "tmp"; lit "t.txt"] 1 (lit "w")), fs') /\
    walk [lit "tmp"; lit "t.txt"] (Some fs') = inr (File [195; 169]).
Proof.
  assert (Hm : lit "w" <> lit "append") by (intros H; vm_compute in H; discriminate).
  destruct (write_stores_content Demo.env Demo.TOKEN solid (lit "/tmp/t.txt") [233]
              (lit "w") Demo.tree [lit "tmp"] (lit "t.txt") _ (Some [104; 105])
              [195; 169] eq_refl Hm eq_refl eq_refl eq_refl eq_refl)
    as (fs' & H1 & H2 & _).
  exists fs'. split; assumption.
Defined.

(** X7. Appending, under the same conditions, is answered 200 and leaves
    in the file what it held (nothing, when it was not there) followed by
    the encoded content; paths that part ways with the target lead where
    they led. *)
Theorem append_extends_file :
  forall env TOKEN ACCESS P C fs q n es prev bs,
    Level.fs_write ACCESS = true ->
    resolve env P = q ++ [n] ->
    walk q (Some fs) = inr (Dir es) ->
    lookup_entry n es = option_map File prev ->
    Codec.encode C = Some bs ->
    exists fs',
      serve env TOKEN ACCESS (Some (lit "Bearer " ++ TOKEN))
            (POST_fs_write (mkWriteRequest P C (lit "append"))) fs
      = (OK (Written (q ++ [n]) (List.length C) (lit "append")), fs') /\
      walk (q ++ [n]) (Some fs')
      = inr (File (match prev with Some old => old | None => [] end ++ bs)) /\
      (forall p, diverge (q ++ [n]) p = true -> walk p (Some fs') = walk p (Some fs)).
Proof.
  intros env TOKEN ACCESS P C fs q n es prev bs Hw Hp Hq Hl He.
  assert (Ho : open_a (lookup_entry n es)
               = inr (Some (File match prev with Some old => old | None => [] end)))
    by (rewrite Hl; destruct prev; reflexivity).
  destruct (open_write_ok open_a _ q n es C bs fs Hq Ho He) as (fs' & Hrun & Hf & Hfr).
  exists fs'. split; [|split; [exact Hf|exact Hfr]].
  unfold serve, respond. cbn [handle].
  rewrite (fs_write_steps env TOKEN ACCESS _ _ Hw).
  cbn [wr_path wr_content wr_mode]. rewrite Hp, parent_snoc.
  rewrite (bind_return _ _ _ _ _ (Path_mkdir_exists env _ _ _ Hq)).
  rewrite str_eqb_refl. unfold append_text.
  now rewrite (bind_return _ _ _ _ _ Hrun).
Qed.

Lemma append_extends_file_witness :
  exists fs',
    serve Demo.env Demo.TOKEN solid Demo.bearer
          (POST_fs_write (mkWriteRequest (lit "/tmp/t.txt") (lit "!") (lit "append")))
          Demo.tree
    = (OK (Written [lit "tmp"; lit "t.txt"] 1 (lit "append")), fs') /\
    walk [lit "tmp"; lit "t.txt"] (Some fs') = inr (File [104; 105; 33]).
Proof.
  destruct (append_extends_file Demo.env Demo.TOKEN solid (lit "/tmp/t.txt") (lit "!")
              Demo.tree [lit "tmp"] (lit "t.txt") _ (Some [104; 105]) [33]
              eq_refl eq_refl eq_refl eq_refl eq_refl)
    as (fs' & H1 & H2 & _).
  exists fs'. split; assumption.
Defined.

(** X8. [mkdir] makes every missing level: when the path leaves an
    existing directory at an entry that is not there, the request (under
    a level that grants writing, with the correct credential) is
    answered 200 with [created: true], the target is then an empty
    directory, which a listing shows as such, and paths that part ways
    with the first new level lead where they led. *)
Theorem mkdir_makes_missing_levels :
  forall env TOKEN ACCESS P fs q n1 rest es,
    Level.fs_write ACCESS = true ->
    resolve env P = q ++ n1 :: rest ->
    walk q (Some fs) = inr (Dir es) ->
    lookup_entry n1 es = None ->
    let authorization := Some (lit "Bearer " ++ TOKEN) in
    exists fs',
      serve env TOKEN ACCESS authorization (POST_fs_mkdir (mkMkdirRequest P)) fs
      = (OK (Created (q ++ n1 :: rest) true), fs') /\
      walk (q ++ n1 :: rest) (Some fs') = inr (Dir []) /\
      (forall p, diverge (q ++ [n1]) p = true -> walk p (Some fs') = walk p (Some fs)) /\
      (Level.fs_read ACCESS = true ->
       serve env TOKEN ACCESS authorization (GET_fs_ls P) fs'
       = (OK (LsDir (q ++ n1 :: rest) []), fs')).
Proof.
  intros env TOKEN ACCESS P fs q n1 rest es Hw Hp Hq Hl authorization.
  subst authorization.
  destruct (Path_mkdir_missing env q n1 es fs Hq Hl rest) as (fs' & Hm & Hd & Hfr).
  exists fs'. split; [|split; [exact Hd|split; [exact Hfr|]]].
  - unfold serve, respond. cbn [handle].
    rewrite (fs_mkdir_run env TOKEN ACCESS _ _ Hw). cbn [mk_path].
    now rewrite Hp, Hm.
  - intros Hr. rewrite <- Hp in *. now apply fs_ls_empty.
Qed.

Lemma mkdir_makes_missing_levels_witness :
  exists fs',
    serve Demo.env Demo.TOKEN solid Demo.bearer
          (POST_fs_mkdir (mkMkdirRequest (lit "/srv/a/b/c"))) Demo.tree
    = (OK (Created [lit "srv"; lit "a"; lit "b"; lit "c"] true), fs') /\
    walk [lit "srv"; lit "a"; lit "b"; lit "c"] (Some fs') = inr (Dir []).
Proof.
  destruct (mkdir_makes_missing_levels Demo.env Demo.TOKEN solid (lit "/srv/a/b/c")
              Demo.tree [lit "srv"] (lit "a") [lit "b"; lit "c"] _
              eq_refl eq_refl eq_refl eq_refl)
    as (fs' & H1 & H2 & _).
  exists fs'. split; assumption.
Defined.

(** X9. A write makes the missing parent directories: when the path
    leaves an existing directory at an entry that is not there, goes
    through any number of further levels and ends in a file name, the
    request is answered 200, the file holds the encoded content, its
    parent is a directory, and paths that part ways with the first new
    level lead where they led. *)
Theorem write_makes_missing_parents :
  forall env TOKEN ACCESS P C mode fs q n1 rest leaf es bs,
    Level.fs_write ACCESS = true ->
    resolve env P = (q ++ n1 :: rest) ++ [leaf] ->
    walk q (Some fs) = inr (Dir es) ->
    lookup_entry n1 es = None ->
    Codec.encode C = Some bs ->
    exists fs',
      serve env TOKEN ACCESS (Some (lit "Bearer " ++ TOKEN))
            (POST_fs_write (mkWriteRequest P C mode)) fs
      = (OK (Written ((q ++ n1 :: rest) ++ [leaf]) (List.length C) mode), fs') /\
      walk ((q ++ n1 :: rest) ++ [leaf]) (Some fs') = inr (File bs) /\
      (exists es', walk (q ++ n1 :: rest) (Some fs') = inr (Dir es')) /\
      (forall p, diverge (q ++ [n1]) p = true -> walk p (Some fs') = walk p (Some fs)).
Proof.
  intros env TOKEN ACCESS P C mode fs q n1 rest leaf es bs Hw Hp Hq Hl He.
  destruct (Path_mkdir_missing env q n1 es fs Hq Hl rest) as (fs1 & Hm & Hd & Hfr1).
  assert (Hrun : exists fs',
             (if str_eqb mode (lit "append")
              then append_text ((q ++ n1 :: rest) ++ [leaf]) C
              else write_text ((q ++ n1 :: rest) ++ [leaf]) C) fs1
             = (Return (List.length C), fs') /\
             walk ((q ++ n1 :: rest) ++ [leaf]) (Some fs') = inr (File bs) /\
             (forall p, diverge ((q ++ n1 :: rest) ++ [leaf]) p = true ->
                        walk p (Some fs') = walk p (Some fs1))).
  { destruct (str_eqb mode (lit "append")).
    - exact (open_write_ok open_a [] _ leaf [] C bs fs1 Hd eq_refl He).
    - exact (open_write_ok open_w [] _ leaf [] C bs fs1 Hd eq_refl He). }
  destruct Hrun as (fs' & Hrun & Hf & Hfr2).
  exists fs'. split; [|split; [exact Hf|split]].
  - unfold serve, respond. cbn [handle].
    rewrite (fs_write_steps env TOKEN ACCESS _ _ Hw).
    cbn [wr_path wr_content wr_mode]. rewrite Hp, parent_snoc.
    rewrite (bind_return _ _ _ _ _ Hm).
    now rewrite (bind_return _ _ _ _ _ Hrun).
  - apply walk_last in Hf as (es' & Hq' & _). eauto.
  - intros p Hdv. rewrite Hfr2, Hfr1; auto.
    rewrite <- app_assoc. simpl. apply (diverge_extend q n1 (rest ++ [leaf]) p Hdv).
Qed.

Lemma write_makes_missing_parents_witness :
  exists fs',
    serve Demo.env Demo.TOKEN solid Demo.bearer
          (POST_fs_write (mkWriteRequest (lit "/srv/a/b/t.txt") (lit "hi") (lit "write")))
          Demo.tree
    = (OK (Written [lit "srv"; lit "a"; lit "b"; lit "t.txt"] 2 (lit "write")), fs') /\
    walk [lit "srv"; lit "a"; lit "b"; lit "t.txt"] (Some fs') = inr (File [104; 105]).
Proof.
  destruct (write_makes_missing_parents Demo.env Demo.TOKEN solid (lit "/srv/a/b/t.txt")
              (lit "hi") (lit "write") Demo.tree [lit "srv"] (lit "a") [lit "b"]
              (lit "t.txt") _ [104; 105] eq_refl eq_refl eq_refl eq_refl eq_refl)
    as (fs' & H1 & H2 & _).
  exists fs'. split; assumption.
Defined.

(* ====================================================================== *)
(** * The health check *)
(* ====================================================================== *)

(** X10. The health check names the active level and shows its four
    permission bits, for each of the three levels of the table; a value of
    [ACCESS] that is none of the three is named [unknown]. *)
Theorem health_reports_level :
  forall fs,
    (forall l,
        health (access_of l) fs
        = (Return (Health (lit "ok") (lit "1.0.0") (key l)
                          (isAllowed l CanRead) (isAllowed l CanWrite)
                          (isAllowed l CanDelete) (isAllowed l CanExecute)), fs)) /\
    (forall ACCESS,
        (forall l, Level_eqb (access_of l) ACCESS = false) ->
        health ACCESS fs
        = (Return (Health (lit "ok") (lit "1.0.0") (lit "unknown")
                          (Level.fs_read ACCESS) (Level.fs_write ACCESS)
                          (Level.fs_delete ACCESS) (Level.exec ACCESS)), fs)).
Proof.
  intros fs. split.
  - intros []; reflexivity.
  - intros ACCESS H. unfold health, LEVELS. cbn [find snd].
    pose proof (H Limited) as H1. pose proof (H Solid) as H2. pose proof (H Full) as H3.
    change (access_of Limited) with limited in H1.
    change (access_of Solid) with solid in H2.
    change (access_of Full) with full in H3.
    now rewrite H1, H2, H3.
Qed.

(* ====================================================================== *)
(** * Looking for a port *)
(* ====================================================================== *)

Section PortFacts.

Variable bindable : Z -> bool.

(** What each outcome of the scan says about the ports it went through. *)
Lemma scan_ports_spec tries : forall port,
  match scan_ports bindable port tries with
  | Port p =>
      port <= p < port + Z.of_nat tries /\ 0 <= p <= 65535 /\
      bindable p = true /\
      forall k, port <= k < p -> bindable k = false
  | RuntimeError =>
      forall k, port <= k < port + Z.of_nat tries ->
                0 <= k <= 65535 /\ bindable k = false
  | OverflowError =>
      exists k, port <= k < port + Z.of_nat tries /\ (k < 0 \/ 65535 < k) /\
                forall j, port <= j < k -> 0 <= j <= 65535 /\ bindable j = false
  end.
Proof.
  induction tries as [|tries IH]; intros port.
  - simpl. intros k Hk. lia.
  - cbn [scan_ports].
    destruct (Z.ltb_spec port 0) as [Hneg|Hnn]; cbn [orb].
    { exists port. split; [lia|]. split; [lia|]. intros j Hj. lia. }
    destruct (Z.ltb_spec 65535 port) as [Hbig|Hsmall].
    { exists port. split; [lia|]. split; [lia|]. intros j Hj. lia. }
    destruct (bindable port) eqn:Eb.
    { split; [lia|]. split; [lia|]. split; [exact Eb|]. intros k Hk. lia. }
    specialize (IH (port + 1)).
    destruct (scan_ports bindable (port + 1) tries) as [p| |].
    + destruct IH as (Hr & Hp & Hb & Hlow).
      split; [lia|]. split; [lia|]. split; [exact Hb|].
      intros k Hk. destruct (Z.eq_dec k port) as [->|Hne]; [exact Eb|].
      apply Hlow. lia.
    + intros k Hk. destruct (Z.eq_dec k port) as [->|Hne]; [split; [lia|exact Eb]|].
      apply IH. lia.
    + destruct IH as (k & Hk & Hout & Hlow). exists k.
      split; [lia|]. split; [exact Hout|].
      intros j Hj. destruct (Z.eq_dec j port) as [->|Hne]; [split; [lia|exact Eb]|].
      apply Hlow. lia.
Qed.

End PortFacts.

(** X11. The port [find_open_port] returns is the lowest port of
    [range(start, start + max_tries)] that can be bound: it lies in the
    range, it is a 16-bit number, it can be bound, and no port of the
    range below it can. *)
Theorem find_open_port_lowest :
  forall bindable start max_tries p,
    find_open_port bindable start max_tries = Port p ->
    start <= p < start + max_tries /\ 0 <= p <= 65535 /\
    bindable p = true /\
    forall k, start <= k < p -> bindable k = false.
Proof.
  intros bindable start max_tries p H. unfold find_open_port in H.
  pose proof (scan_ports_spec bindable (Z.to_nat max_tries) start) as S.
  rewrite H in S. destruct S as (Hr & Hp & Hb & Hlow).
  repeat split; try lia; auto.
Qed.

Lemma find_open_port_lowest_witness :
  6969 <= 6971 < 6969 + 100 /\ 0 <= 6971 <= 65535 /\
  (fun port => 6971 <=? port) 6971 = true /\
  forall k, 6969 <= k < 6971 -> (fun port => 6971 <=? port) k = false.
Proof.
  apply (find_open_port_lowest (fun port => 6971 <=? port) 6969 100 6971).
  reflexivity.
Defined.

(** X12. How [find_open_port] fails.  It raises [RuntimeError] only when
    every port of the range is a 16-bit number that cannot be bound (so
    always when [max_tries] is not positive).  When the range starts at a
    16-bit number and holds a port in 0..65535 that can be bound, a port
    is returned.  When it starts at a 16-bit number and runs past 65535
    with nothing to bind on the way, the [OverflowError] of [bind]
    escapes instead. *)
Theorem find_open_port_failures :
  forall bindable start max_tries,
    (find_open_port bindable start max_tries = RuntimeError ->
     forall k, start <= k < start + max_tries ->
               0 <= k <= 65535 /\ bindable k = false) /\
    (max_tries <= 0 -> find_open_port bindable start max_tries = RuntimeError) /\
    (forall k, 0 <= start <= k -> k < start + max_tries -> k <= 65535 ->
               bindable k = true ->
               exists p, find_open_port bindable start max_tries = Port p /\ p <= k) /\
    (0 <= start <= 65535 -> 65535 < start + max_tries - 1 ->
     (forall k, start <= k <= 65535 -> bindable k = false) ->
     find_open_port bindable start max_tries = OverflowError).
Proof.
  intros bindable start max_tries. unfold find_open_port.
  pose proof (scan_ports_spec bindable (Z.to_nat max_tries) start) as S.
  split; [|split; [|split]].
  - intros H k Hk. rewrite H in S. apply S. lia.
  - intros H. replace (Z.to_nat max_tries) with 0%nat by lia. reflexivity.
  - intros k Hs Hk Hk' Hb.
    destruct (scan_ports bindable start (Z.to_nat max_tries)) as [p| |].
    + exists p. split; [reflexivity|]. destruct S as (_ & _ & _ & Hlow).
      destruct (Z.le_gt_cases p k) as [Hle|Hgt]; [exact Hle|].
      rewrite (Hlow k) in Hb by lia. discriminate.
    + destruct (S k) as [_ Hf]; [lia|]. congruence.
    + destruct S as (j & Hj & Hout & Hlow).
      destruct (Hlow k) as [_ Hf]; [lia|]. congruence.
  - intros Hs Hover Hbusy.
    destruct (scan_ports bindable start (Z.to_nat max_tries)) as [p| |].
    + destruct S as (Hr & Hp & Hb & _). rewrite Hbusy in Hb by lia. discriminate.
    + destruct (S 65536) as [Hk _]; lia.
    + reflexivity.
Qed.

Lemma find_open_port_failures_witness :
  exists p, find_open_port (fun port => 8082 <=? port) 8080 100 = Port p /\ p <= 8082.
Proof.
  apply (find_open_port_failures (fun port => 8082 <=? port) 8080 100);
    [lia | lia | lia | reflexivity].
Defined.

(* ====================================================================== *)
(** * The token file *)
(* ====================================================================== *)

Lemma hexdigit_not_space c : hexdigit c = true -> isspace c = false.
Proof.
  unfold hexdigit, isspace. intros H.
  assert (R : 48 <= c <= 102).
  { apply orb_true_iff in H as [H|H]; apply andb_true_iff in H as [H1 H2];
      apply Z.leb_le in H1, H2; lia. }
  repeat match goal with
         | |- context [?a <=? ?b] => destruct (Z.leb_spec a b); try lia
         | |- context [?a =? ?b] => destruct (Z.eqb_spec a b); try lia
         end;
    try reflexivity.
Qed.

Lemma hexdigit_not_cr c : hexdigit c = true -> negb (c =? 13) = true.
Proof.
  unfold hexdigit. intros H.
  assert (R : 48 <= c <= 102).
  { apply orb_true_iff in H as [H|H]; apply andb_true_iff in H as [H1 H2];
      apply Z.leb_le in H1, H2; lia. }
  destruct (Z.eqb_spec c 13); [lia | reflexivity].
Qed.

Lemma lstrip_no_space s :
  forallb (fun c => negb (isspace c)) s = true -> lstrip s = s.
Proof.
  destruct s as [|c s]; simpl; [reflexivity|].
  intros H. apply andb_true_iff in H as [H _].
  now destruct (isspace c).
Qed.

Lemma lstrip_all_space s : forallb isspace s = true -> lstrip s = [].
Proof.
  induction s as [|c s IH]; simpl; [reflexivity|].
  intros H. apply andb_true_iff in H as [-> H]. now apply IH.
Qed.

(** [strip] leaves a string of hexadecimal digits as it is. *)
Lemma strip_hex s : forallb hexdigit s = true -> strip s = s.
Proof.
  intros H.
  assert (Hs : forallb (fun c => negb (isspace c)) s = true).
  { apply forallb_forall. intros c Hc.
    rewrite (hexdigit_not_space c); [reflexivity|].
    exact (proj1 (forallb_forall _ _) H c Hc). }
  assert (Hr : forallb (fun c => negb (isspace c)) (rev s) = true).
  { apply forallb_forall. intros c Hc. apply in_rev in Hc.
    exact (proj1 (forallb_forall _ _) Hs c Hc). }
  unfold strip. rewrite (lstrip_no_space _ Hs), (lstrip_no_space _ Hr).
  apply rev_involutive.
Qed.

(** [strip] empties a string of white space. *)
Lemma strip_all_space s : forallb isspace s = true -> strip s = [].
Proof.
  intros H. unfold strip. now rewrite (lstrip_all_space _ H).
Qed.

Lemma hex_no_cr s : forallb hexdigit s = true -> Codec.no_cr s = true.
Proof.
  intros H. unfold Codec.no_cr. apply forallb_forall. intros c Hc.
  apply hexdigit_not_cr. exact (proj1 (forallb_forall _ _) H c Hc).
Qed.

Lemma universal_newlines_all_space s :
  forallb isspace s = true -> forallb isspace (Codec.universal_newlines s) = true.
Proof.
  induction s as [|c r IH]; [reflexivity|].
  intros H. cbn [forallb] in H. apply andb_true_iff in H as [Hc Hr].
  specialize (IH Hr). cbn [Codec.universal_newlines].
  destruct (c =? 13).
  - destruct r as [|d r']; [reflexivity|].
    destruct (Z.eqb_spec d 10) as [->|Hd].
    + change (Codec.universal_newlines (10 :: r'))
        with (10 :: Codec.universal_newlines r') in IH.
      exact IH.
    + cbn [forallb]. now rewrite IH.
  - cbn [forallb]. now rewrite Hc, IH.
Qed.

Section TokenFile.

Variable env : Env.
Variable home : path.

Lemma TOKEN_FILE_not_root : TOKEN_FILE home <> [].
Proof. unfold TOKEN_FILE. destruct home; discriminate. Qed.

Lemma exists_false_inv p fs fs' :
  exists_ env p fs = (Return false, fs') ->
  peek p (Some fs) = None \/ peek p (Some fs) = Some Dangling \/
  peek p (Some fs) = Some Denied.
Proof.
  intros H. destruct (peek p (Some fs)) as [[]|] eqn:P; auto;
    apply walk_of_peek in P; try discriminate;
    unfold exists_ in H;
    rewrite (stat_test_found env _ _ _ _ P) in H by discriminate;
    discriminate.
Qed.

(** With the file there, the token is its stripped text and nothing
    changes. *)
Lemma get_or_create_token_read hex fs data s :
  walk (TOKEN_FILE home) (Some fs) = inr (File data) ->
  Codec.decode data = Some s ->
  get_or_create_token env home hex fs
  = (Return (strip (Codec.universal_newlines s)), fs).
Proof.
  intros Hw Hd. unfold get_or_create_token.
  destruct (walk_parent _ _ _ TOKEN_FILE_not_root Hw) as [es Hp].
  rewrite (bind_return _ _ _ _ _ (Path_mkdir_exists env _ _ _ Hp)).
  unfold exists_.
  rewrite (bind_return _ _ _ _ _
             (stat_test_found env _ _ _ _ Hw ltac:(discriminate))).
  unfold bind, read_text. now rewrite Hw, Hd.
Qed.

End TokenFile.

(** X13. The token persists: whatever a call of [get_or_create_token]
    returns, the next call returns the same token and changes nothing,
    whatever [secrets.token_hex] would then give.  (The token made on a
    first run is a string of hexadecimal digits.) *)
Theorem token_persists :
  forall env home hex hex' fs t fs',
    forallb hexdigit hex = true ->
    get_or_create_token env home hex fs = (Return t, fs') ->
    get_or_create_token env home hex' fs' = (Return t, fs').
Proof.
  intros env home hex hex' fs t fs' Hhex H.
  unfold get_or_create_token in H.
  apply bind_inv in H as ([] & fs1 & Hm & H).
  apply bind_inv in H as (e & fs2 & He & H).
  pose proof (stat_test_state _ _ _ _ _ _ He). subst fs2.
  destruct e.
  - apply bind_inv in H as (content & fs2 & Hr & H).
    pose proof (readonly_read_text _ _ _ _ Hr). subst fs2.
    injection H as <- <-.
    destruct (Path_mkdir_ok env _ _ _ Hm) as [es Hp].
    unfold get_or_create_token.
    rewrite (bind_return _ _ _ _ _ (Path_mkdir_exists env _ _ _ Hp)).
    rewrite (bind_return _ _ _ _ _ He).
    now rewrite (bind_return _ _ _ _ _ Hr).
  - apply bind_inv in H as (n & fs2 & Hw & H).
    apply bind_inv in H as ([] & fs3 & Hc & H).
    injection H as <- <-.
    assert (fs3 = fs2).
    { unfold chmod in Hc. apply bind_inv in Hc as (st & fs4 & Hs & Hc).
      pose proof (readonly_os_stat _ _ _ _ Hs). subst fs4. now injection Hc as <-. }
    subst fs3.
    unfold write_text in Hw. apply bind_inv in Hw as ([] & fs3 & Hu & Hw).
    apply update_walk in Hu. apply f_write_inv in Hw as (_ & bs & Henc & Hw).
    assert (Hf : walk (TOKEN_FILE home) (Some fs2) = inr (File bs)).
    { destruct (exists_false_inv _ _ _ _ He) as [Hn|[Hn|Hn]]; rewrite Hn in Hu;
        simpl in Hu; try discriminate;
        injection Hu as Hu; rewrite <- Hu in Hw; simpl in Hw;
        injection Hw as Hw; symmetry in Hw;
        (apply walk_of_peek in Hw; [exact Hw | discriminate]). }
    rewrite (get_or_create_token_read env home hex' fs2 bs hex Hf
               (CodecFacts.decode_encode _ _ Henc)).
    rewrite (CodecFacts.universal_newlines_no_cr _ (hex_no_cr _ Hhex)).
    now rewrite (strip_hex _ Hhex).
Qed.

Lemma token_persists_witness :
  let first := get_or_create_token Demo.env [lit "home"; lit "me"] Demo.TOKEN Demo.tree in
  fst first = Return Demo.TOKEN /\
  get_or_create_token Demo.env [lit "home"; lit "me"] (lit "ffff") (snd first)
  = (Return Demo.TOKEN, snd first).
Proof.
  split; [vm_compute; reflexivity|].
  apply (token_persists Demo.env [lit "home"; lit "me"] Demo.TOKEN (lit "ffff")
           Demo.tree); vm_compute; reflexivity.
Defined.

(** X14. A token file that holds only white space (or nothing) gives the
    empty token, and [require_auth] then accepts the header [Bearer ]
    with nothing after the space. *)
Theorem blank_token_file :
  forall env home hex fs data s,
    walk (TOKEN_FILE home) (Some fs) = inr (File data) ->
    Codec.decode data = Some s ->
    forallb isspace s = true ->
    get_or_create_token env home hex fs = (Return [], fs) /\
    require_auth [] (Some (lit "Bearer ")) fs = (Return [], fs).
Proof.
  intros env home hex fs data s Hw Hd Hs. split.
  - rewrite (get_or_create_token_read env home hex fs data s Hw Hd).
    now rewrite (strip_all_space _ (universal_newlines_all_space _ Hs)).
  - rewrite <- (app_nil_r (lit "Bearer ")). apply require_auth_ok.
Qed.

Lemma blank_token_file_witness :
  get_or_create_token Demo.env [lit "srv"] Demo.TOKEN
    (Dir [(lit "srv", Dir [(lit ".trapdoor", Dir [(lit "token", File [32; 10])])])])
  = (Return [],
     Dir [(lit "srv", Dir [(lit ".trapdoor", Dir [(lit "token", File [32; 10])])])]).
Proof.
  apply (blank_token_file Demo.env [lit "srv"] Demo.TOKEN _ [32; 10] [32; 10]);
    reflexivity.
Defined.

(* ====================================================================== *)
(** * Sizes *)
(* ====================================================================== *)

Module SizeFacts.
Import Codec.




End SizeFacts.

Section FileRoutes.

Variable env : Env.
Variable TOKEN : str.
Variable ACCESS : Level.t.



End FileRoutes.





(* ====================================================================== *)
(** * More on running commands *)
(* ====================================================================== *)




(** X18. Other failures to run a command are answered 500 and leave the
    tree as it was: an empty argument vector, a working directory that is
    a file or a device, and a program that may not be executed. *)
Theorem exec_generic_failures :
  forall env TOKEN ACCESS req fs,
    Level.exec ACCESS = true ->
    let response :=
      serve env TOKEN ACCESS (Some (lit "Bearer " ++ TOKEN)) (POST_exec req) fs in
    (cmd req = [] -> response = (InternalServerError IndexError, fs)) /\
    (cmd req <> [] ->
     (exists data, walk (os_path env (cwd req)) (Some fs) = inr (File data)) \/
     walk (os_path env (cwd req)) (Some fs) = inr Sink ->
     response = (InternalServerError NotADirectoryError, fs)) /\
    (cmd req <> [] ->
     (exists es, walk (os_path env (cwd req)) (Some fs) = inr (Dir es)) ->
     execvp env (cmd req) (os_path env (cwd req)) fs = SpawnError PermissionError ->
     response = (InternalServerError PermissionError, fs)).
Proof.
  intros env TOKEN ACCESS req fs He response. subst response.
  unfold serve, respond. cbn [handle].
  rewrite (exec_command_run env TOKEN ACCESS _ _ He). unfold subprocess_run.
  split; [|split].
  - intros ->. reflexivity.
  - intros Hc Hw. destruct (cmd req) as [|prog args]; [congruence|].
    unfold bind, get. destruct Hw as [[data ->] | ->]; reflexivity.
  - intros Hc [es Hw] Hs. destruct (cmd req) as [|prog args]; [congruence|].
    unfold bind, get. rewrite Hw, Hs. reflexivity.
Qed.

Lemma exec_generic_failures_witness :
  serve Demo.env Demo.TOKEN full Demo.bearer
        (POST_exec (mkExecRequest [] (lit "/tmp") 60)) Demo.tree
  = (InternalServerError IndexError, Demo.tree) /\
  serve Demo.env Demo.TOKEN full Demo.bearer
        (POST_exec (mkExecRequest [lit "ls"] (lit "/tmp/t.txt") 60)) Demo.tree
  = (InternalServerError NotADirectoryError, Demo.tree).
Proof.
  split.
  - apply (exec_generic_failures Demo.env Demo.TOKEN full
             (mkExecRequest [] (lit "/tmp") 60) Demo.tree eq_refl). reflexivity.
  - apply (exec_generic_failures Demo.env Demo.TOKEN full
             (mkExecRequest [lit "ls"] (lit "/tmp/t.txt") 60) Demo.tree eq_refl).
    + discriminate.
    + left. eexists. reflexivity.
Defined.

(* ====================================================================== *)
(** * What writing never removes *)
(* ====================================================================== *)

Lemma same_kind_refl n : same_kind n n = true.
Proof. destruct n; reflexivity. Qed.

Lemma same_kind_trans a b c :
  same_kind a b = true -> same_kind b c = true -> same_kind a c = true.
Proof. destruct a, b, c; simpl; congruence. Qed.

(** [alter] with a change that keeps nodes keeps every path. *)
Lemma alter_keeps_paths f :
  keeps_node f ->
  forall p o o', alter p f o = inr o' ->
  forall q n, walk q o = inr n ->
  exists n', walk q o' = inr n' /\ same_kind n n' = true.
Proof.
  intros [_ Hf]. induction p as [|a p IH]; intros o o' Ha q n Hw; simpl in Ha.
  - destruct o as [t|]; [|destruct q; discriminate].
    assert (Ht : t <> Dangling) by (intros ->; destruct q; discriminate).
    destruct (Hf _ _ Ht Ha) as (t' & -> & Hk & Hd).
    destruct q as [|b q].
    + exists t'. destruct t, t'; simpl in *; try discriminate;
        injection Hw as <-; auto.
    + destruct t; simpl in *; discriminate.
  - destruct o as [[data|es| | |]|]; try discriminate.
    destruct (alter p f (lookup_entry a es)) as [e|r] eqn:E; [discriminate|].
    injection Ha as <-.
    destruct q as [|b q]; simpl in *.
    + injection Hw as <-. eexists. split; reflexivity.
    + destruct (str_eqb a b) eqn:Eab.
      * apply str_eqb_eq in Eab. subst b. rewrite lookup_put.
        exact (IH _ _ E _ _ Hw).
      * rewrite (lookup_put_other _ _ _ _ Eab). exists n.
        split; [exact Hw | apply same_kind_refl].
Qed.

Lemma alter_keeps_root f p t :
  keeps_node f -> alter p f (Some t) <> inr None.
Proof.
  intros [Hf _] H. destruct p as [|a p]; simpl in H.
  - exact (Hf _ H).
  - destruct t; try discriminate.
    destruct (alter p f (lookup_entry a entries)); discriminate.
Qed.

Section KeepsPaths.

Variable env : Env.

Lemma keeps_paths_readonly {A} (m : M A) : readonly m -> keeps_paths m.
Proof.
  intros Hm fs r fs' H q n Hw. rewrite (Hm _ _ _ H).
  exists n. split; [exact Hw | apply same_kind_refl].
Qed.

Lemma keeps_paths_bind {A B} (m : M A) (k : A -> M B) :
  keeps_paths m -> (forall a, keeps_paths (k a)) -> keeps_paths (bind m k).
Proof.
  intros Hm Hk fs r fs' H q n Hw. unfold bind in H.
  destruct (m fs) as [[a|e] fs1] eqn:E.
  - destruct (Hm _ _ _ E _ _ Hw) as (n1 & Hw1 & Hk1).
    destruct (Hk a _ _ _ H _ _ Hw1) as (n2 & Hw2 & Hk2).
    exists n2. split; [exact Hw2 | exact (same_kind_trans _ _ _ Hk1 Hk2)].
  - injection H as _ <-. exact (Hm _ _ _ E _ _ Hw).
Qed.

Lemma keeps_paths_try_except {A} (m : M A) h :
  keeps_paths m -> (forall e, keeps_paths (h e)) -> keeps_paths (try_except m h).
Proof.
  intros Hm Hh fs r fs' H q n Hw. unfold try_except in H.
  destruct (m fs) as [[a|e] fs1] eqn:E.
  - injection H as _ <-. exact (Hm _ _ _ E _ _ Hw).
  - destruct (Hm _ _ _ E _ _ Hw) as (n1 & Hw1 & Hk1).
    destruct (Hh e _ _ _ H _ _ Hw1) as (n2 & Hw2 & Hk2).
    exists n2. split; [exact Hw2 | exact (same_kind_trans _ _ _ Hk1 Hk2)].
Qed.

Lemma keeps_paths_update p f : keeps_node f -> keeps_paths (update p f).
Proof.
  intros Hf fs r fs' H q n Hw. unfold update in H.
  destruct (alter p f (Some fs)) as [e|[t|]] eqn:E.
  - injection H as _ <-. exists n. split; [exact Hw | apply same_kind_refl].
  - injection H as _ <-. exact (alter_keeps_paths f Hf _ _ _ E _ _ Hw).
  - exfalso. exact (alter_keeps_root f p fs Hf E).
Qed.

Lemma keeps_node_mkdir :
  keeps_node (fun o => match o with
                       | Some _ => inl FileExistsError
                       | None => inr (Some (Dir []))
                       end).
Proof.
  split; [intros [n|]; discriminate | intros n r _ H; discriminate].
Qed.

Lemma keeps_node_open_w : keeps_node open_w.
Proof.
  split; [intros [[]|]; discriminate|].
  intros n r Hn H. destruct n; simpl in H; try discriminate; try congruence;
    injection H as <-; eexists; repeat split.
Qed.

Lemma keeps_node_open_a : keeps_node open_a.
Proof.
  split; [intros [[]|]; discriminate|].
  intros n r Hn H. destruct n; simpl in H; try discriminate; try congruence;
    injection H as <-; eexists; repeat split.
Qed.

Lemma keeps_node_os_write bs : keeps_node (os_write bs).
Proof.
  split; [intros [[]|]; discriminate|].
  intros n r Hn H. destruct n; simpl in H; try discriminate;
    injection H as <-; eexists; repeat split.
Qed.

Lemma keeps_paths_exist_ok p e :
  keeps_paths (bind (is_dir env p) (fun d => raise_if (negb d) e)).
Proof.
  apply keeps_paths_readonly, readonly_bind;
    [apply readonly_stat_test | intros d; apply readonly_raise_if].
Qed.

Lemma keeps_paths_mkdir_from rp : keeps_paths (mkdir_from env rp).
Proof.
  induction rp as [|m rp IH]; rewrite mkdir_from_eq;
    (apply keeps_paths_try_except;
     [apply keeps_paths_update, keeps_node_mkdir|]);
    intros e.
  - destruct e; cbn [is_OSError];
      first [apply keeps_paths_exist_ok
            | apply keeps_paths_readonly, readonly_raise].
  - destruct e; cbn [is_OSError];
      try (first [apply keeps_paths_exist_ok
                 | apply keeps_paths_readonly, readonly_raise]).
    apply keeps_paths_bind; [exact IH|]. intros _.
    apply keeps_paths_try_except;
      [apply keeps_paths_update, keeps_node_mkdir|].
    intros e'. destruct e'; cbn [is_OSError];
      first [apply keeps_paths_exist_ok
            | apply keeps_paths_readonly, readonly_raise].
Qed.

Lemma keeps_paths_f_write p C : keeps_paths (f_write p C).
Proof.
  unfold f_write. destruct (Codec.encode C) as [bs|].
  - apply keeps_paths_bind; [apply keeps_paths_update, keeps_node_os_write|].
    intros _. apply keeps_paths_readonly, readonly_ret.
  - apply keeps_paths_readonly, readonly_raise.
Qed.

Variable TOKEN : str.
Variable ACCESS : Level.t.

Lemma keeps_paths_fs_write req authorization :
  keeps_paths (fs_write env TOKEN ACCESS req authorization).
Proof.
  unfold fs_write.
  apply keeps_paths_bind;
    [apply keeps_paths_readonly, readonly_require_auth|]. intros _.
  apply keeps_paths_bind; [apply keeps_paths_readonly, readonly_raise_if|].
  intros _.
  apply keeps_paths_bind; [apply keeps_paths_mkdir_from|]. intros _.
  apply keeps_paths_bind; [|intros _; apply keeps_paths_readonly, readonly_ret].
  destruct (str_eqb (wr_mode req) (lit "append")).
  - apply keeps_paths_bind; [apply keeps_paths_update, keeps_node_open_a|].
    intros _. apply keeps_paths_f_write.
  - apply keeps_paths_bind; [apply keeps_paths_update, keeps_node_open_w|].
    intros _. apply keeps_paths_f_write.
Qed.

Lemma keeps_paths_fs_mkdir req authorization :
  keeps_paths (fs_mkdir env TOKEN ACCESS req authorization).
Proof.
  unfold fs_mkdir.
  apply keeps_paths_bind;
    [apply keeps_paths_readonly, readonly_require_auth|]. intros _.
  apply keeps_paths_bind; [apply keeps_paths_readonly, readonly_raise_if|].
  intros _.
  apply keeps_paths_bind; [apply keeps_paths_mkdir_from|]. intros _.
  apply keeps_paths_readonly, readonly_ret.
Qed.

Lemma keeps_paths_respond (m : M Body) fs q n :
  keeps_paths m -> walk q (Some fs) = inr n ->
  exists n', walk q (Some (snd (respond m fs))) = inr n' /\ same_kind n n' = true.
Proof.
  intros Hm Hw. unfold respond.
  destruct (m fs) as [[b|e] fs1] eqn:E;
    destruct (Hm _ _ _ E _ _ Hw) as (n' & Hw' & Hk);
    exists n'; (split; [|exact Hk]); [|destruct e]; exact Hw'.
Qed.

End KeepsPaths.

(** X19. Without the capabilities to delete and to execute (the levels
    [limited] and [solid]) no request removes anything or changes its
    kind: after any request on any route, with any header and whatever
    the answer, every path that led to a file, a directory or a device
    still leads to one of the same kind. *)
Theorem no_delete_level_keeps_paths :
  forall env TOKEN ACCESS authorization r fs q n,
    Level.fs_delete ACCESS = false ->
    Level.exec ACCESS = false ->
    walk q (Some fs) = inr n ->
    exists n',
      walk q (Some (snd (serve env TOKEN ACCESS authorization r fs))) = inr n' /\
      same_kind n n' = true.
Proof.
  intros env TOKEN ACCESS authorization r fs q n Hd He Hw.
  assert (Hsame : snd (serve env TOKEN ACCESS authorization r fs) = fs ->
                  exists n',
                    walk q (Some (snd (serve env TOKEN ACCESS authorization r fs)))
                    = inr n' /\ same_kind n n' = true).
  { intros ->. exists n. split; [exact Hw | apply same_kind_refl]. }
  assert (Hoff : forall c, required_capability r = Some c -> grants ACCESS c = false ->
                           snd (serve env TOKEN ACCESS authorization r fs) = fs).
  { intros c Hr Hc. unfold serve, respond.
    destruct (require_auth_cases TOKEN authorization fs) as [E|[E|[-> _]]].
    - now rewrite (handle_auth_raise env TOKEN ACCESS _ r _ _ E).
    - now rewrite (handle_auth_raise env TOKEN ACCESS _ r _ _ E).
    - now rewrite (handle_capability_off env TOKEN ACCESS r c fs Hr Hc). }
  destruct r.
  - apply Hsame. unfold serve. cbn [handle]. apply readonly_respond, readonly_fs_ls.
  - apply Hsame. unfold serve. cbn [handle]. apply readonly_respond, readonly_fs_read.
  - unfold serve. cbn [handle].
    apply keeps_paths_respond; [apply keeps_paths_fs_write | exact Hw].
  - unfold serve. cbn [handle].
    apply keeps_paths_respond; [apply keeps_paths_fs_mkdir | exact Hw].
  - apply Hsame, (Hoff CanDelete); [reflexivity | exact Hd].
  - apply Hsame, (Hoff CanExecute); [reflexivity | exact He].
  - apply Hsame. unfold serve. cbn [handle].
    apply readonly_respond, readonly_chat_completions.
Qed.

Lemma no_delete_level_keeps_paths_witness :
  exists n',
    walk [lit "tmp"; lit "t.txt"]
         (Some (snd (serve Demo.env Demo.TOKEN solid Demo.bearer
                           (POST_fs_write (mkWriteRequest (lit "/tmp/t.txt/x") (lit "!")
                                                          (lit "write")))
                           Demo.tree)))
    = inr n' /\ same_kind (File [104; 105]) n' = true.
Proof.
  apply (no_delete_level_keeps_paths Demo.env Demo.TOKEN solid); reflexivity.
Defined.



(* ====================================================================== *)
(** * A listing that stops *)
(* ====================================================================== *)

Lemma lookup_entry_Some_In n es c :
  lookup_entry n es = Some c -> In n (map fst es).
Proof.
  induction es as [|[m c0] es IH]; simpl; [discriminate|].
  destruct (str_eqb m n) eqn:E; [|auto].
  apply str_eqb_eq in E. auto.
Qed.

(** A loop in which one turn raises, and every turn returns or raises
    the same and leaves the state alone, raises that. *)
Lemma for_each_raise {A B} (f : A -> M B) e fs l a :
  In a l -> f a fs = (Raise e, fs) ->
  (forall b, In b l ->
             (exists r, f b fs = (Return r, fs)) \/ f b fs = (Raise e, fs)) ->
  for_each f l fs = (Raise e, fs).
Proof.
  intros Ha Hf. induction l as [|b l IH]; intros Hl; [contradiction|].
  simpl. destruct (Hl b (or_introl eq_refl)) as [[r Hr] | Hr].
  - rewrite (bind_return _ _ _ _ _ Hr).
    destruct Ha as [-> | Ha]; [congruence|].
    now rewrite (bind_raise _ _ _ _ _ (IH Ha (fun x Hx => Hl x (or_intror Hx)))).
  - now rewrite (bind_raise _ _ _ _ _ Hr).
Qed.

(** X21. A dangling link among the entries of a directory stops the
    listing: under a level that grants reading and with the correct
    credential the request is answered 500 ([FileNotFoundError], which
    the loop does not handle), whatever the other entries are, and the
    tree is left as it was. *)
Theorem listing_stops_at_dangling_link :
  forall env TOKEN ACCESS P fs es n,
    Level.fs_read ACCESS = true ->
    walk (resolve env P) (Some fs) = inr (Dir es) ->
    lookup_entry n es = Some Dangling ->
    serve env TOKEN ACCESS (Some (lit "Bearer " ++ TOKEN)) (GET_fs_ls P) fs
    = (InternalServerError FileNotFoundError, fs).
Proof.
  intros env TOKEN ACCESS P fs es n Hr Hw Hl.
  assert (Hin : forall m, In m (sorted (map fst es)) -> In m (map fst es))
    by (intros m Hm; eapply Permutation_in;
        [apply Permutation_sym, sorted_Permutation | exact Hm]).
  assert (Hn : In n (sorted (map fst es)))
    by (eapply Permutation_in;
        [apply sorted_Permutation | exact (lookup_entry_Some_In _ _ _ Hl)]).
  assert (Hall : forall m, In m (sorted (map fst es)) ->
                   (exists r, ls_entry env (resolve env P) m fs = (Return r, fs)) \/
                   ls_entry env (resolve env P) m fs = (Raise FileNotFoundError, fs)).
  { intros m Hm. destruct (lookup_entry_In _ _ (Hin m Hm)) as [c Hc].
    destruct (listed m c) as [e|] eqn:He.
    - left. exists e. exact (ls_entry_run env _ _ _ _ _ _ Hw Hc He).
    - right. destruct c; try discriminate.
      exact (ls_entry_dangling env _ _ _ _ Hw Hc). }
  unfold serve, respond. cbn [handle]. unfold fs_ls.
  rewrite (bind_return _ _ _ _ _ (require_auth_ok TOKEN fs)), Hr.
  cbn [negb raise_if]. unfold bind at 1. cbn [ret].
  unfold exists_, is_dir.
  rewrite (bind_return _ _ _ _ _
             (stat_test_found env _ _ _ _ Hw ltac:(discriminate))).
  cbn [negb raise_if]. unfold bind at 1. cbn [ret].
  rewrite (bind_return _ _ _ _ _
             (stat_test_found env _ _ _ _ Hw ltac:(discriminate))).
  cbn [S_ISDIR negb].
  assert (Hi : iterdir (resolve env P) fs = (Return (map fst es), fs))
    by (unfold iterdir; now rewrite Hw).
  rewrite (bind_return _ _ _ _ _ Hi).
  rewrite (bind_raise _ _ _ _ _
             (for_each_raise _ _ _ _ _ Hn
                (ls_entry_dangling env _ _ _ _ Hw Hl) Hall)).
  reflexivity.
Qed.

Lemma listing_stops_at_dangling_link_witness :
  serve Demo.env Demo.TOKEN limited Demo.bearer (GET_fs_ls (lit "/srv")) Demo.links
  = (InternalServerError FileNotFoundError, Demo.links).
Proof.
  apply (listing_stops_at_dangling_link Demo.env Demo.TOKEN limited (lit "/srv")
           Demo.links _ (lit "old") eq_refl eq_refl eq_refl).
Defined.

(* ====================================================================== *)
(** * A command that has started *)
(* ====================================================================== *)


